(** * K3 Matryoshka indexer: a shallow embedding of [k3_mrl_indexer.py]

    The development follows [MatryoshkaIndexer]: the Python string and
    regular-expression primitives it calls, the line-respecting chunker
    ([smart_chunk], [_text_splitter]), the sanitiser, the insertion-ordered
    index dictionary, the checkpoint writer ([save_index]) over a small file
    system, the indexing run ([run_indexing], [_embed_batch_worker]) and the
    two-stage funnel [search].

    Conventions.  A Python [str] is a [string]; a character is a code point
    below 256.  A Python [int] is a [Z].  External libraries (hashlib, numpy,
    pickle, the embedding client, the optional refrag module, the thread
    pool) are interfaces whose laws are the ones their documentation gives.
    A function that can raise returns an [option] or a sum, [None] standing
    for the exception; what the program prints is kept as a list of lines;
    the threads of the pool show only through the order in which the
    batches complete. *)

From Stdlib Require Import ZArith List String Ascii Lia Permutation Sorted.
From stdpp Require Import gmap strings pretty.
Import ListNotations.

#[local] Unset Default Proof Using.
#[local] Open Scope Z_scope.

(** ** Python string primitives *)

Module PyStr.

Definition newline : ascii := "010"%char.
Definition nl : string := String newline EmptyString.

(** [len(s)] *)
Definition len (s : string) : Z := Z.of_nat (String.length s).

(** [s.split("\n")]: never empty, the empty string splits to one empty line. *)
Fixpoint split_nl (s : string) : list string :=
  match s with
  | EmptyString => [EmptyString]
  | String c s' =>
      if Ascii.eqb c newline then EmptyString :: split_nl s'
      else match split_nl s' with
           | [] => [String c EmptyString]
           | l :: ls => String c l :: ls
           end
  end.

(** ["\n".join(ls)] *)
Definition join_nl (ls : list string) : string := String.concat nl ls.

(** [c.isspace()], which is also what [\s] matches in a [str] pattern:
    code points 9-13, 28-32, 0x85 and 0xA0. *)
Definition isspace (c : ascii) : bool :=
  let n := nat_of_ascii c in
  ((9 <=? n)%nat && (n <=? 13)%nat) || ((28 <=? n)%nat && (n <=? 32)%nat)
  || (n =? 133)%nat || (n =? 160)%nat.

Fixpoint lstrip (s : string) : string :=
  match s with
  | EmptyString => EmptyString
  | String c s' => if isspace c then lstrip s' else s
  end.

Fixpoint rstrip (s : string) : string :=
  match s with
  | EmptyString => EmptyString
  | String c s' =>
      match rstrip s' with
      | EmptyString => if isspace c then EmptyString else String c EmptyString
      | r => String c r
      end
  end.

(** [s.strip()] *)
Definition strip (s : string) : string := rstrip (lstrip s).

(** [s.startswith(p)] *)
Definition startswith (p s : string) : bool := String.prefix p s.

(** [s.endswith(p)] *)
Definition endswith (p s : string) : bool :=
  let n := String.length s in
  let m := String.length p in
  (m <=? n)%nat && String.eqb (substring (n - m) m s) p.

(** [s[:n]] for a non-negative literal [n]. *)
Definition take (n : nat) (s : string) : string := substring 0 n s.

(** [s[n:]] for a non-negative literal [n]. *)
Fixpoint drop (n : nat) (s : string) : string :=
  match n, s with
  | O, _ => s
  | S _, EmptyString => EmptyString
  | S k, String _ s' => drop k s'
  end.

(** [s.replace(old, new)]: every non-overlapping occurrence, leftmost
    first.  [skip] counts the characters of the occurrence being replaced
    that are still to be passed over. *)
Fixpoint replace_from (old new : string) (skip : nat) (s : string) : string :=
  match s with
  | EmptyString => EmptyString
  | String c s' =>
      match skip with
      | S k => replace_from old new k s'
      | O =>
          if String.prefix old s
          then new +:+ replace_from old new (String.length old - 1) s'
          else String c (replace_from old new 0 s')
      end
  end.

Fixpoint interleave (new s : string) : string :=
  match s with
  | EmptyString => new
  | String c s' => new +:+ String c (interleave new s')
  end.

Definition replace (old new s : string) : string :=
  match old with
  | EmptyString => interleave new s
  | _ => replace_from old new 0 s
  end.

(** [str(n)] for a non-negative integer. *)
Definition str_of_nat (n : nat) : string := pretty n.

End PyStr.

(** ** The two regular expressions of the module *)

Module Re.
Import PyStr.

(** A line matches [^--- FILE: .*? ---$] (MULTILINE) exactly when it
    starts with ["--- FILE: "] and what follows ends with [" ---"]: the
    dot does not cross a newline and [$] only holds at a line end, so a
    match is always one whole line. *)
Definition is_file_marker (line : string) : bool :=
  startswith "--- FILE: " line && endswith " ---" (drop 10 line).

(** [re.split(r"(^--- FILE: .*? ---$)", text, flags=re.MULTILINE)],
    computed over the lines of [text].  [acc] holds the lines of the
    current text piece; a piece that touches a marker line keeps the
    newline that separates them, which shows as an empty boundary line. *)
Fixpoint split_markers (lines acc : list string) : list string :=
  match lines with
  | [] => [join_nl acc]
  | l :: rest =>
      if is_file_marker l
      then join_nl (acc ++ [EmptyString]) :: l :: split_markers rest [EmptyString]
      else split_markers rest (acc ++ [l])
  end.

Definition split_file_markers (text : string) : list string :=
  split_markers (split_nl text) [].

(** Offset of the first occurrence of [pat] reachable through [.*?],
    that is, before any newline. *)
Fixpoint find_on_line (pat s : string) : option nat :=
  if String.prefix pat s then Some O
  else match s with
       | EmptyString => None
       | String c s' =>
           if Ascii.eqb c newline then None
           else option_map S (find_on_line pat s')
       end.

(** Length of the match of [!\[.*?\]\(.*?\)] anchored at the start of
    [s], if there is one. *)
Definition image_match (s : string) : option nat :=
  if String.prefix "![" s then
    match find_on_line "](" (drop 2 s) with
    | Some i =>
        match find_on_line ")" (drop (2 + i + 2) s) with
        | Some j => Some (2 + i + 2 + j + 1)%nat
        | None => None
        end
    | None => None
    end
  else None.

(** [re.sub(r"!\[.*?\]\(.*?\)", EMPTY, text)], where [EMPTY] is the empty string. *)
Fixpoint sub_images_from (skip : nat) (s : string) : string :=
  match s with
  | EmptyString => EmptyString
  | String c s' =>
      match skip with
      | S k => sub_images_from k s'
      | O =>
          match image_match s with
          | Some n => sub_images_from (n - 1) s'
          | None => String c (sub_images_from 0 s')
          end
      end
  end.

Definition sub_images (text : string) : string := sub_images_from 0 text.

(** [re.sub(r"\s+", " ", text)]; [in_run] tells that the previous
    character was white space, already replaced by one blank. *)
Fixpoint sub_spaces_from (in_run : bool) (s : string) : string :=
  match s with
  | EmptyString => EmptyString
  | String c s' =>
      if isspace c
      then if in_run then sub_spaces_from true s'
           else String " "%char (sub_spaces_from true s')
      else String c (sub_spaces_from false s')
  end.

Definition sub_spaces (text : string) : string := sub_spaces_from false text.

End Re.

(** ** The chunker *)

Module Chunker.
Import PyStr.

(** A chunk is the pair [(chunk_text, suffix)] the chunker yields. *)
Abbreviation chunk := (string * string)%type.

(** The local variables of the loop of [_text_splitter]. *)
Record splitter := {
  chunks : list chunk;
  current_chunk : list string;
  current_len : Z;
  chunk_idx : nat
}.

Definition splitter_init : splitter :=
  {| chunks := []; current_chunk := []; current_len := 0; chunk_idx := 0 |}.

(** [f"::{base_id}"] and [f"::{base_id}[{chunk_idx}]"] *)
Definition plain_suffix (base_id : string) : string := "::" +:+ base_id.
Definition indexed_suffix (base_id : string) (idx : nat) : string :=
  "::" +:+ base_id +:+ "[" +:+ str_of_nat idx +:+ "]".

(** "Commit current chunk" *)
Definition commit (base_id : string) (st : splitter) : splitter :=
  {| chunks := chunks st ++ [(join_nl (current_chunk st), indexed_suffix base_id (chunk_idx st))];
     current_chunk := [];
     current_len := 0;
     chunk_idx := S (chunk_idx st) |}.

(** One iteration of [for line in lines]. *)
Definition splitter_step (base_id : string) (limit : Z) (st : splitter) (line : string) : splitter :=
  let line_len := len line + 1 in
  let st1 :=
    if current_len st + line_len >? limit then
      match current_chunk st with
      | [] => st
      | _ :: _ => commit base_id st
      end
    else st in
  {| chunks := chunks st1;
     current_chunk := current_chunk st1 ++ [line];
     current_len := current_len st1 + line_len;
     chunk_idx := chunk_idx st1 |}.

(** "Flush remainder" *)
Definition flush (base_id : string) (st : splitter) : list chunk :=
  match current_chunk st with
  | [] => chunks st
  | _ :: _ => chunks (commit base_id st)
  end.

Definition _text_splitter (text base_id : string) (limit : Z) : list chunk :=
  if len text <=? limit then [(text, plain_suffix base_id)]
  else flush base_id (fold_left (splitter_step base_id limit) (split_nl text) splitter_init).

(** The body of [for part in parts] in [smart_chunk]; the state is the
    pair of [current_header] and [chunks]. *)
Definition part_step (limit : Z) (st : string * list chunk) (part : string) : string * list chunk :=
  let '(current_header, chunks) := st in
  let part := strip part in
  match part with
  | EmptyString => st
  | _ =>
      if startswith "--- FILE:" part
      then (strip (replace "---" EmptyString (replace "--- FILE:" EmptyString part)), chunks)
      else (current_header, chunks ++ _text_splitter part current_header limit)
  end.

Definition smart_chunk (raw_text : string) (limit : Z) : list chunk :=
  let parts := Re.split_file_markers raw_text in
  if (1 <? length parts)%nat
  then snd (fold_left (part_step limit) parts ("preamble"%string, []))
  else _text_splitter raw_text "main" limit.

(** The default [limit] of [smart_chunk]. *)
Definition default_limit : Z := 8000.

End Chunker.

(** ** External libraries, as interfaces *)

(** numpy, as far as [search] uses it.  [float32] is the element type of the
    stored vectors and of the scores.  [sort_le] is the order [np.argsort]
    sorts floats by (numeric order, NaN after every number); [argsort]
    returns a permutation of the positions that puts the values in that
    order, and promises nothing about equal values (the default kind is not
    stable).  The normalisations and the product keep the shapes of their
    arguments; their values are left to the library. *)
Class Numpy := {
  float32 : Type;
  sort_le : float32 -> float32 -> bool;
  sort_le_total : forall a b, sort_le a b = true \/ sort_le b a = true;
  sort_le_trans : forall a b c, sort_le a b = true -> sort_le b c = true -> sort_le a c = true;
  argsort : list float32 -> list nat;
  argsort_perm : forall a, Permutation (argsort a) (seq 0 (length a));
  argsort_sorted : forall a,
    StronglySorted
      (fun i j => forall x y, nth_error a i = Some x -> nth_error a j = Some y -> sort_le x y = true)
      (argsort a);
  (** [m / (np.linalg.norm(m, axis=1, keepdims=True) + 1e-9)] *)
  normalize_rows : list (list float32) -> list (list float32);
  normalize_rows_length : forall m, length (normalize_rows m) = length m;
  (** [q / (np.linalg.norm(q) + 1e-9)] *)
  normalize : list float32 -> list float32;
  normalize_length : forall q, length (normalize q) = length q;
  (** [np.dot(m, q)] on a matrix and a vector of matching shapes *)
  dot : list (list float32) -> list float32 -> list float32;
  dot_length : forall m q, length (dot m q) = length m
}.

(** hashlib: [hashlib.md5(text.encode("utf-8")).hexdigest()] *)
Class Hashlib := { md5_hexdigest : string -> string }.

(** pickle: [pickle.dump(obj, f, protocol=pickle.HIGHEST_PROTOCOL)] writes
    these bytes. *)
Class Pickle (A : Type) := { pickle_dumps : A -> list Byte.byte }.

(** What [client.models.embed_content] does with a request: it raises, or
    it returns a response whose [embeddings] hold the [values] of one
    vector per text ([[]] also stands for an absent list). *)
Inductive embed_response `{Numpy} :=
| EmbedRaises (message : string)
| EmbedReturns (embeddings : list (list float32)).

Class EmbeddingClient `{Numpy} := {
  embed_content :
    forall (model : string) (contents : list string) (output_dimensionality : Z), embed_response
}.

(** The optional [refrag] module: [None] when neither import succeeds.
    A slicer that raises returns [None]. *)
Record refrag_module := {
  slice_to_refrag : forall (text : string) (window_size stride : Z), option (list Chunker.chunk);
  get_strategy_for_file : string -> string
}.

Class Refrag := { refrag_import : option refrag_module }.

(** [concurrent.futures.as_completed]: the submitted batches come back in
    some order, each exactly once. *)
Class ThreadPool := {
  as_completed : forall {A : Type}, list A -> list A;
  as_completed_perm : forall (A : Type) (l : list A), Permutation (as_completed l) l
}.

(** ** The index dictionary *)

Module Index.
Section WithNumpy.
Context `{Numpy}.

(** [{ 'vector': np.array, 'hash': str, 'snippet': str }] *)
Record entry := { vector : list float32; hash : string; snippet : string }.

(** A Python [dict] keeps its keys in insertion order, and assigning to a
    key already present keeps that key's place. *)
#[local] Abbreviation dict := (list (string * entry)).

Fixpoint get (k : string) (d : dict) : option entry :=
  match d with
  | [] => None
  | (k', e) :: d' => if String.eqb k k' then Some e else get k d'
  end.

Fixpoint set (k : string) (e : entry) (d : dict) : dict :=
  match d with
  | [] => [(k, e)]
  | (k', e') :: d' => if String.eqb k k' then (k, e) :: d' else (k', e') :: set k e d'
  end.

(** [list(d.keys())] and [d.values()] *)
Definition keys (d : dict) : list string := map fst d.
Definition values (d : dict) : list entry := map snd d.

End WithNumpy.

Abbreviation t := (list (string * entry)).
End Index.

(** ** pathlib and the file system *)

Module Pathlib.
Import PyStr.

(** Position of the last occurrence of [c]. *)
Fixpoint rfind (c : ascii) (s : string) : option nat :=
  match s with
  | EmptyString => None
  | String a s' =>
      match rfind c s' with
      | Some i => Some (S i)
      | None => if Ascii.eqb a c then Some O else None
      end
  end.

(** [p.name]: the final component of a POSIX path. *)
Definition name (p : string) : string :=
  match rfind "/" p with
  | Some i => drop (S i) p
  | None => p
  end.

(** [p.suffix]: from the last dot of the name, unless that dot is the
    first or the last character. *)
Definition suffix (p : string) : string :=
  let n := name p in
  match rfind "." n with
  | Some i => if (0 <? i)%nat && (i <? String.length n - 1)%nat then drop i n else EmptyString
  | None => EmptyString
  end.

(** [p.with_suffix(sfx)]; [None] is the [ValueError] raised for a path
    with an empty name. *)
Definition with_suffix (p sfx : string) : option string :=
  match name p with
  | EmptyString => None
  | _ => Some (take (String.length p - String.length (suffix p)) p +:+ sfx)
  end.

End Pathlib.

Module Fs.

(** The disk: the files that exist, with their contents. *)
Abbreviation disk := (gmap string (list Byte.byte)).

(** [p.exists()] *)
Definition exists_ (p : string) (d : disk) : bool :=
  match d !! p with Some _ => true | None => false end.

(** [open(p, "wb")], a complete write and the close. *)
Definition write_file (p : string) (data : list Byte.byte) (d : disk) : disk :=
  <[p := data]> d.

(** [p.unlink()]; [None] is [FileNotFoundError]. *)
Definition unlink (p : string) (d : disk) : option disk :=
  match d !! p with
  | Some _ => Some (delete p d)
  | None => None
  end.

(** [src.rename(dst)] with no file at [dst] or, on POSIX, replacing it;
    [None] is [FileNotFoundError]. *)
Definition rename (src dst : string) (d : disk) : option disk :=
  match d !! src with
  | Some data => Some (<[dst := data]> (delete src d))
  | None => None
  end.

(** A save can be cut short between two file operations, by an exception
    that the next operation raises or by the death of the process. *)
Inductive cut :=
| NoCut
| CutBeforeOpen                 (** [open(temp_file, "wb")] raises *)
| CutInWrite (written : nat)    (** [pickle.dump] stops after that many bytes *)
| CutAfterWrite                 (** the temporary file is complete; nothing else ran *)
| CutAfterUnlink.               (** the old snapshot is unlinked; the rename did not run *)

End Fs.

(** ** The indexer *)

Module Indexer.
Import PyStr Chunker.

(** Configuration constants of the module. *)
Definition DEFAULT_DIMENSION : Z := 768.
Definition DEFAULT_MODEL : string := "models/text-embedding-004".
Definition BATCH_SIZE : Z := 5.
Definition MAX_WORKERS : Z := 4.
Definition SAVE_INTERVAL : Z := 20.

(** [sanitize_content]: drop markdown images, collapse white space, strip. *)
Definition sanitize_content (text : string) : string :=
  let text := Re.sub_images text in
  strip (Re.sub_spaces text).

(** What the program prints, line by line, without the formatting. *)
Inductive line :=
| SayCheckpointSaved (entries : nat)
| SaySaveFailed
| SayApiError (message : string)
| SayLimiting (limit : Z)
| SayFound (files : nat)
| SayRefragLoaded
| SayRefragNotFound
| SayReadError (file_path : string)
| SayUpToDate
| SayProcessing (batches : nat)
| SayIndexed (path : string)
| SayIndexingComplete
| SayIndexEmpty
| SayResultsFor (query : string)
| SayHit (path : string)
| SaySearchError (message : string).

(** A file found by [walk_files]: [str(file_path)], [file_path.name] and
    what [read_text] gives, [None] when it raises. *)
Record source_file := {
  file_path : string;
  file_name : string;
  read_text : option string
}.

Section WithServices.
Context `{np : Numpy} {hl : Hashlib} {ec : EmbeddingClient} {rf : Refrag} {tp : ThreadPool}.
Context {pk : Pickle Index.t}.

(** [get_file_hash] *)
Definition get_file_hash (text : string) : string := md5_hexdigest text.

(** A two-dimensional array: its rows and the length every row has. *)
Record ndarray := { rows : list (list float32); ncols : nat }.

(** [np.stack(vs)]: [None] is the [ValueError] for no array or for arrays
    of different lengths. *)
Definition np_stack (vs : list (list float32)) : option ndarray :=
  match vs with
  | [] => None
  | v :: _ =>
      if forallb (fun u => (length u =? length v)%nat) vs
      then Some {| rows := vs; ncols := length v |}
      else None
  end.

(** The attributes of [self] that the modelled methods read or write. *)
Record indexer := {
  dimension : Z;
  index_file : string;
  index : Index.t;
  _unsaved_changes : Z;
  _matrix_cache : option ndarray;
  _paths_cache : option (list string)
}.

(** The indexer in its environment: the disk, the requests sent to the
    embedding service so far, the console, and the cuts that the coming
    saves will meet (none when the list is empty). *)
Record world := {
  self : indexer;
  disk : Fs.disk;
  api_calls : list (list string);
  console : list line;
  cuts : list Fs.cut
}.

Definition with_self (f : indexer -> indexer) (w : world) : world :=
  {| self := f (self w); disk := disk w; api_calls := api_calls w;
     console := console w; cuts := cuts w |}.

Definition print (l : line) (w : world) : world :=
  {| self := self w; disk := disk w; api_calls := api_calls w;
     console := console w ++ [l]; cuts := cuts w |}.

Definition log_call (contents : list string) (w : world) : world :=
  {| self := self w; disk := disk w; api_calls := api_calls w ++ [contents];
     console := console w; cuts := cuts w |}.

Definition set_disk (d : Fs.disk) (w : world) : world :=
  {| self := self w; disk := d; api_calls := api_calls w;
     console := console w; cuts := cuts w |}.

Definition next_cut (w : world) : Fs.cut * world :=
  match cuts w with
  | [] => (Fs.NoCut, w)
  | c :: cs =>
      (c, {| self := self w; disk := disk w; api_calls := api_calls w;
             console := console w; cuts := cs |})
  end.

(** *** [save_index] *)

(** The [try] block of [save_index] on the disk, up to the cut: the disk it
    leaves and whether it reached its end. *)
Definition save_try (c : Fs.cut) (temp_file index_file : string)
    (data : list Byte.byte) (d : Fs.disk) : Fs.disk * bool :=
  match c with
  | Fs.CutBeforeOpen => (d, false)
  | Fs.CutInWrite n => (Fs.write_file temp_file (firstn n data) d, false)
  | _ =>
      let d1 := Fs.write_file temp_file data d in
      match c with
      | Fs.CutAfterWrite => (d1, false)
      | _ =>
          match (if Fs.exists_ index_file d1 then Fs.unlink index_file d1 else Some d1) with
          | None => (d1, false)
          | Some d2 =>
              match c with
              | Fs.CutAfterUnlink => (d2, false)
              | _ =>
                  match Fs.rename temp_file index_file d2 with
                  | None => (d2, false)
                  | Some d3 => (d3, true)
                  end
              end
          end
      end
  end.

Definition clear_unsaved (s : indexer) : indexer :=
  {| dimension := dimension s; index_file := index_file s; index := index s;
     _unsaved_changes := 0;
     _matrix_cache := _matrix_cache s; _paths_cache := _paths_cache s |}.

(** [save_index]; [None] is the [ValueError] of [with_suffix], raised
    before the [try]. *)
Definition save_index (w : world) : option world :=
  if _unsaved_changes (self w) =? 0 then Some w
  else
    match Pathlib.with_suffix (index_file (self w)) ".tmp" with
    | None => None
    | Some temp_file =>
        let '(c, w) := next_cut w in
        let '(d, finished) :=
          save_try c temp_file (index_file (self w)) (pickle_dumps (index (self w))) (disk w) in
        let w := set_disk d w in
        if finished
        then Some (with_self clear_unsaved (print (SayCheckpointSaved (length (index (self w)))) w))
        else Some (print SaySaveFailed w)
    end.

(** *** [_embed_batch_worker] *)

(** One element of the list the worker returns:
    [(path, vector, hash, snippet)]. *)
Abbreviation result := (string * list float32 * string * string)%type.

(** [zip(paths, vectors, texts)], which stops with the shortest. *)
Fixpoint zip3 {A B C : Type} (a : list A) (b : list B) (c : list C) : list (A * B * C) :=
  match a, b, c with
  | x :: a', y :: b', z :: c' => (x, y, z) :: zip3 a' b' c'
  | _, _, _ => []
  end.

(** The worker proper.  [batch_data] is never empty where it is called, see
    [RunFacts.tasks_nonempty]; the second component is the line printed on an API
    error. *)
Definition _embed_batch_worker (dim : Z) (batch_data : list (string * string))
    : list result * list line :=
  let paths := map fst batch_data in
  let texts := map snd batch_data in
  match embed_content DEFAULT_MODEL texts dim with
  | EmbedRaises e => ([], [SayApiError e])
  | EmbedReturns embeddings =>
      (map (fun '(path, vec, text) => (path, vec, get_file_hash text, take 200 text))
           (zip3 paths embeddings texts), [])
  end.

(** *** [run_indexing] *)

(** The chunks of a file, [None] when reading or slicing raises, which the
    [except] of the file loop turns into a warning. *)
Definition file_chunks (f : source_file) : option (list chunk) :=
  match read_text f with
  | None => None
  | Some raw_text =>
      match refrag_import with
      | Some m =>
          if String.eqb (get_strategy_for_file m (file_name f)) "refrag"
          then slice_to_refrag m raw_text 128 64
          else Some (smart_chunk raw_text default_limit)
      | None => Some (smart_chunk raw_text default_limit)
      end
  end.

(** The incremental check: the key is present, its hash is the new hash and
    its vector has the configured length. *)
Definition up_to_date (s : indexer) (full_path new_hash : string) : bool :=
  match Index.get full_path (index s) with
  | Some e =>
      String.eqb (Index.hash e) new_hash
      && (Z.of_nat (length (Index.vector e)) =? dimension s)
  | None => false
  end.

(** The processing queue: the batches already closed and the open one. *)
Record queue := {
  tasks : list (list (string * string));
  current_batch : list (string * string)
}.

(** The body of [for chunk_text, chunk_suffix in file_chunks]. *)
Definition enqueue_chunk (s : indexer) (path : string) (q : queue) (c : chunk) : queue :=
  let '(chunk_text, chunk_suffix) := c in
  let clean_text := sanitize_content chunk_text in
  match clean_text with
  | EmptyString => q
  | _ =>
      let full_path := path +:+ chunk_suffix in
      let new_hash := get_file_hash clean_text in
      if up_to_date s full_path new_hash then q
      else
        let batch := current_batch q ++ [(full_path, clean_text)] in
        if BATCH_SIZE <=? Z.of_nat (length batch)
        then {| tasks := tasks q ++ [batch]; current_batch := [] |}
        else {| tasks := tasks q; current_batch := batch |}
  end.

(** The body of [for file_path in files]: the queue and the warnings. *)
Definition enqueue_file (s : indexer) (st : queue * list line) (f : source_file) : queue * list line :=
  let '(q, out) := st in
  match file_chunks f with
  | None => (q, out ++ [SayReadError (file_path f)])
  | Some cs => (fold_left (enqueue_chunk s (file_path f)) cs q, out)
  end.

(** "Flush final batch" *)
Definition close_queue (q : queue) : list (list (string * string)) :=
  match current_batch q with
  | [] => tasks q
  | _ :: _ => tasks q ++ [current_batch q]
  end.

(** [files[:limit]] when [limit > 0]. *)
Definition limit_files (limit : Z) (files : list source_file) : list source_file :=
  if 0 <? limit then firstn (Z.to_nat limit) files else files.

(** The batches that a run submits to the pool. *)
Definition prepare_tasks (s : indexer) (files : list source_file) : list (list (string * string)) * list line :=
  let '(q, out) := fold_left (enqueue_file s) files ({| tasks := []; current_batch := [] |}, []) in
  (close_queue q, out).

(** [self.index[path] = {...}], the counter and the cache invalidation. *)
Definition store_result (r : result) (s : indexer) : indexer :=
  let '(path, vec, txt_hash, snip) := r in
  {| dimension := dimension s; index_file := index_file s;
     index := Index.set path {| Index.vector := vec; Index.hash := txt_hash; Index.snippet := snip |} (index s);
     _unsaved_changes := _unsaved_changes s + 1;
     _matrix_cache := None; _paths_cache := None |}.

Definition merge_result (w : world) (r : result) : world :=
  print (SayIndexed (fst (fst (fst r)))) (with_self (store_result r) w).

(** The body of [for future in as_completed(...)], for the future of
    [batch]: the worker's call, then the merge and the periodic save. *)
Definition merge_batch (ow : option world) (batch : list (string * string)) : option world :=
  match ow with
  | None => None
  | Some w =>
      let '(results, out) := _embed_batch_worker (dimension (self w)) batch in
      let w := fold_left (fun w l => print l w) out (log_call (map snd batch) w) in
      match results with
      | [] => Some w
      | _ :: _ =>
          let w := fold_left merge_result results w in
          if SAVE_INTERVAL <=? _unsaved_changes (self w) then save_index w else Some w
      end
  end.

Definition say_refrag : line :=
  match refrag_import with Some _ => SayRefragLoaded | None => SayRefragNotFound end.

(** [run_indexing(limit)] on the files that [walk_files] returned. *)
Definition run_indexing (walked : list source_file) (limit : Z) (w : world) : option world :=
  let w := if 0 <? limit then print (SayLimiting limit) w else w in
  let files := limit_files limit walked in
  let w := print say_refrag (print (SayFound (length files)) w) in
  let '(tasks, out) := prepare_tasks (self w) files in
  let w := fold_left (fun w l => print l w) out w in
  match tasks with
  | [] => Some (print SayUpToDate w)
  | _ :: _ =>
      let w := print (SayProcessing (length tasks)) w in
      match fold_left merge_batch (as_completed tasks) (Some w) with
      | None => None
      | Some w =>
          match save_index w with
          | None => None
          | Some w => Some (print SayIndexingComplete w)
          end
      end
  end.

(** *** [search] *)

Definition SHORTLIST_DIM : nat := 64.
Definition SHORTLIST_FACTOR : Z := 15.

(** [a[:k]] for an integer [k] of either sign. *)
Definition slice_to {A : Type} (k : Z) (a : list A) : list A :=
  if 0 <=? k then firstn (Z.to_nat k) a
  else firstn (Z.to_nat (Z.of_nat (length a) + k)) a.

(** [np.dot(m, q)] with its shape check; [None] is the [ValueError]. *)
Definition np_dot (m : ndarray) (q : list float32) : option (list float32) :=
  if (ncols m =? length q)%nat then Some (dot (rows m) q) else None.

(** [matrix[:, :n]] *)
Definition columns_to (n : nat) (m : ndarray) : ndarray :=
  {| rows := map (firstn n) (rows m); ncols := Nat.min n (ncols m) |}.

(** [matrix[idxs]]; [None] is the [IndexError]. *)
Definition take_rows (m : ndarray) (idxs : list nat) : option ndarray :=
  match mapM (fun i => nth_error (rows m) i) idxs with
  | Some rs => Some {| rows := rs; ncols := ncols m |}
  | None => None
  end.

Definition normalize_matrix (m : ndarray) : ndarray :=
  {| rows := normalize_rows (rows m); ncols := ncols m |}.

(** "Prepare Matrix": the cached key list and matrix, rebuilt when either
    is missing.  The key list is assigned before [np.stack] runs, so it
    stays when the stacking raises. *)
Definition prepare_matrix (s : indexer) : indexer * option (list string * ndarray) :=
  match _paths_cache s, _matrix_cache s with
  | Some paths, Some matrix => (s, Some (paths, matrix))
  | _, _ =>
      let paths := Index.keys (index s) in
      let stacked := np_stack (map Index.vector (Index.values (index s))) in
      ({| dimension := dimension s; index_file := index_file s; index := index s;
          _unsaved_changes := _unsaved_changes s;
          _matrix_cache := match stacked with
                           | Some matrix => Some matrix
                           | None => _matrix_cache s
                           end;
          _paths_cache := Some paths |},
       match stacked with
       | Some matrix => Some (paths, matrix)
       | None => None
       end)
  end.

(** The intermediate values of the two stages. *)
Record funnel := {
  scores_short : list float32;
  candidate_idxs : list nat;
  scores_full : list float32;
  final_order : list nat
}.

(** Stage 1, "Low-Res Shortlist": the scores and the candidates. *)
Definition stage1 (paths : list string) (matrix : ndarray) (q_vec : list float32) (top_k : Z)
    : option (list float32 * list nat) :=
  let q_short := firstn SHORTLIST_DIM q_vec in
  let m_short := columns_to SHORTLIST_DIM matrix in
  let m_short_norm := normalize_matrix m_short in
  let q_short_norm := normalize q_short in
  match np_dot m_short_norm q_short_norm with
  | None => None
  | Some scores_short =>
      let k_cand := Z.min (top_k * SHORTLIST_FACTOR) (Z.of_nat (length paths)) in
      Some (scores_short, slice_to k_cand (rev (argsort scores_short)))
  end.

(** Stage 2, "High-Res Rerank", on the rows of the candidates only. *)
Definition stage2 (matrix : ndarray) (q_vec : list float32) (top_k : Z) (candidate_idxs : list nat)
    : option (list float32 * list nat) :=
  match take_rows matrix candidate_idxs with
  | None => None
  | Some m_full_subset =>
      let m_full_norm := normalize_matrix m_full_subset in
      let q_full_norm := normalize q_vec in
      match np_dot m_full_norm q_full_norm with
      | None => None
      | Some scores_full => Some (scores_full, slice_to top_k (rev (argsort scores_full)))
      end
  end.

Definition run_funnel (paths : list string) (matrix : ndarray) (q_vec : list float32) (top_k : Z)
    : option funnel :=
  match stage1 paths matrix q_vec top_k with
  | None => None
  | Some (s1, cands) =>
      match stage2 matrix q_vec top_k cands with
      | None => None
      | Some (s2, order) =>
          Some {| scores_short := s1; candidate_idxs := cands;
                  scores_full := s2; final_order := order |}
      end
  end.

(** One element of the list [search] returns:
    [{"path": ..., "score": ..., "snippet": ...}]. *)
Record hit := { hit_path : string; hit_score : float32; hit_snippet : string }.

(** The body of [for i, idx in enumerate(final_order)]; [None] is an
    exception raised by one of the three subscripts. *)
Definition make_hit (s : indexer) (paths : list string) (f : funnel) (idx : nat) : option hit :=
  match nth_error (candidate_idxs f) idx with
  | None => None
  | Some global_idx =>
      match nth_error paths global_idx with
      | None => None
      | Some path =>
          match nth_error (scores_full f) idx with
          | None => None
          | Some score =>
              match Index.get path (index s) with
              | None => None
              | Some e =>
                  Some {| hit_path := path; hit_score := score;
                          hit_snippet := replace nl " " (Index.snippet e) |}
              end
          end
      end
  end.

(** The result loop inside its own [try]: an exception ends the loop and
    keeps the hits collected so far. *)
Fixpoint collect_hits (s : indexer) (paths : list string) (f : funnel) (order : list nat) : list hit :=
  match order with
  | [] => []
  | idx :: rest =>
      match make_hit s paths f idx with
      | None => []
      | Some h => h :: collect_hits s paths f rest
      end
  end.

(** "Embed Query": the vector of the query, or the message of the
    exception raised by the call itself or by [resp.embeddings[0]] on a
    response without embeddings. *)
Definition embed_query (dim : Z) (query : string) : string + list float32 :=
  match embed_content DEFAULT_MODEL [query] dim with
  | EmbedRaises e => inl e
  | EmbedReturns [] => inl "list index out of range"%string
  | EmbedReturns (values :: _) => inr values
  end.

(** What a call of [search] comes to for its caller: the function returns
    a list, or lets an exception out. *)
Inductive outcome :=
| Returns (results_list : list hit)
| Raises (message : string).

(** [search(query, top_k)]. *)
Definition search (query : string) (top_k : Z) (w : world) : outcome * world :=
  match index (self w) with
  | [] => (Returns [], print SayIndexEmpty w)
  | _ :: _ =>
      let w := log_call [query] w in
      match embed_query (dimension (self w)) query with
      | inl e => (Returns [], print (SaySearchError e) w)
      | inr q_vec =>
          let '(s, prepared) := prepare_matrix (self w) in
          let w := with_self (fun _ => s) w in
          match prepared with
          | None => (Returns [], print (SaySearchError "all input arrays must have the same shape") w)
          | Some (paths, matrix) =>
              match run_funnel paths matrix q_vec top_k with
              | None => (Returns [], print (SaySearchError "shapes not aligned") w)
              | Some f =>
                  let hits := collect_hits s paths f (final_order f) in
                  (Returns hits,
                   fold_left (fun w h => print (SayHit (hit_path h)) w) hits
                     (print (SayResultsFor query) w))
              end
          end
      end
  end.

End WithServices.
End Indexer.

(** ** Loading the snapshot *)

Module Loading.
Import Indexer.

Section WithServices.
Context `{np : Numpy}.

(** A vector as a snapshot holds it: the plain list of the legacy format,
    or an array.  Either way [values] are the numbers as
    [np.array(v, dtype=np.float32)] has them; an entry that stays a list
    in the index is kept by these values. *)
Inductive stored_vector :=
| AsList (values : list float32)
| AsArray (values : list float32).

Record stored_entry := {
  stored_vector_of : stored_vector;
  stored_hash : string;
  stored_snippet : string
}.

(** [pickle.load(f)] on the bytes of a file: the dictionary they decode
    to, [None] when the load raises or the bytes decode to something that
    makes the check after it raise. *)
Class Unpickle := {
  pickle_loads : list Byte.byte -> option (list (string * stored_entry))
}.

Context {up : Unpickle}.

(** What [load_index] prints. *)
Inductive load_line :=
| SayLegacy
| SayLoaded (vectors : nat)
| SayCorrupt
| SayNoIndex.

Definition values_of (v : stored_vector) : list float32 :=
  match v with AsList values | AsArray values => values end.

(** [isinstance(v, list)] *)
Definition is_list (v : stored_vector) : bool :=
  match v with AsList _ => true | AsArray _ => false end.

(** [v["vector"] = np.array(v["vector"], dtype=np.float32)] *)
Definition to_numpy (e : stored_entry) : stored_entry :=
  {| stored_vector_of := AsArray (values_of (stored_vector_of e));
     stored_hash := stored_hash e; stored_snippet := stored_snippet e |}.

Definition entry_of_stored (e : stored_entry) : Index.entry :=
  {| Index.vector := values_of (stored_vector_of e);
     Index.hash := stored_hash e; Index.snippet := stored_snippet e |}.

(** The "Validation check": the first value decides for all. *)
Definition is_legacy (loaded : list (string * stored_entry)) : bool :=
  match loaded with
  | [] => false
  | (_, e) :: _ => is_list (stored_vector_of e)
  end.

Definition set_index (ix : Index.t) (s : indexer) : indexer :=
  {| dimension := dimension s; index_file := index_file s; index := ix;
     _unsaved_changes := _unsaved_changes s;
     _matrix_cache := None; _paths_cache := None |}.

(** [load_index]: the world with the index read from the snapshot file
    and both caches dropped, and the lines printed. *)
Definition load_index (w : world) : world * list load_line :=
  match disk w !! index_file (self w) with
  | Some data =>
      match pickle_loads data with
      | Some loaded =>
          let legacy := is_legacy loaded in
          let loaded := if legacy then map (fun ke => (fst ke, to_numpy (snd ke))) loaded else loaded in
          (with_self (set_index (map (fun ke => (fst ke, entry_of_stored (snd ke))) loaded)) w,
           (if legacy then [SayLegacy] else []) ++ [SayLoaded (length loaded)])
      | None => (with_self (set_index []) w, [SayCorrupt])
      end
  | None => (with_self (set_index (index (self w))) w, [SayNoIndex])
  end.

(** [MatryoshkaIndexer(api_key, target_dir, index_file, dimension)] in the
    environment [w]: a new [self] with the resolved path of the snapshot,
    an empty index, then [load_index]. *)
Definition __init__ (resolved_index_file : string) (dim : Z) (w : world) : world * list load_line :=
  load_index
    (with_self (fun _ => {| dimension := dim; index_file := resolved_index_file; index := [];
                            _unsaved_changes := 0;
                            _matrix_cache := None; _paths_cache := None |}) w).

End WithServices.
End Loading.

(** ** Walking the corpus *)

Module Walker.
Import PyStr Indexer.

(** A directory: its sub-directories by name and its files by name, in
    the order the system lists them, each file with what reading it
    gives.  Symbolic links are left out. *)
#[warnings="-register-all"] Inductive dir :=
| Dir (subdirs : list (string * dir)) (files : list (string * option string)).

Definition skip_dirs : list string :=
  [".git"; "node_modules"; "__pycache__"; "venv"; ".venv"; ".env";
   "dist"; "build"; ".idea"; ".vscode"]%string.

Definition extensions : list string :=
  [".txt"; ".md"; ".py"; ".js"; ".json"; ".html"; ".css"; ".ts";
   ".go"; ".rs"; ".java"; ".c"; ".h"]%string.

(** [x in names] *)
Definition member (x : string) (names : list string) : bool :=
  existsb (String.eqb x) names.

(** [os.path.join(root, name)] and [Path(root) / name] for a name without
    a separator and a root below [target_dir], which [__init__] resolved:
    absolute, and with no separator at its end unless it is the root
    directory. *)
Definition path_join (root name : string) : string :=
  if endswith "/" root then root +:+ name else root +:+ "/" +:+ name.

(** [if Path(file).suffix in extensions: valid_files.append(Path(root) / file)] *)
Definition keep_file (root : string) (f : string * option string) : list source_file :=
  if member (Pathlib.suffix (fst f)) extensions
  then [{| file_path := path_join root (fst f); file_name := fst f; read_text := snd f |}]
  else [].

(** The loop over [os.walk]: the files of [root], then each sub-directory
    that is not skipped, in order. *)
Fixpoint walk (root : string) (d : dir) : list source_file :=
  match d with
  | Dir subdirs files =>
      flat_map (keep_file root) files
      ++ flat_map (fun nd => if member (fst nd) skip_dirs then []
                             else walk (path_join root (fst nd)) (snd nd)) subdirs
  end.

(** [walk_files] on the tree found at [target_dir]. *)
Definition walk_files (target_dir : string) (tree : dir) : list source_file :=
  walk target_dir tree.

End Walker.

(** * Properties *)

(** ** Lines: [split] and [join] *)

Module PyStrFacts.
Import PyStr.

Lemma app_cons (c : ascii) (a b : string) : String c a +:+ b = String c (a +:+ b).
Proof. reflexivity. Qed.

Lemma length_app (a b : string) :
  String.length (a +:+ b) = (String.length a + String.length b)%nat.
Proof.
  induction a as [|c a IH]; [reflexivity |].
  rewrite app_cons. simpl. now rewrite IH.
Qed.

Lemma len_app (a b : string) : len (a +:+ b) = len a + len b.
Proof. unfold len. rewrite length_app. lia. Qed.

Lemma len_nl : len nl = 1.
Proof. reflexivity. Qed.

Lemma app_empty_r (a : string) : a +:+ EmptyString = a.
Proof.
  induction a as [|c a IH]; [reflexivity |].
  now rewrite app_cons, IH.
Qed.

Lemma app_assoc (a b c : string) : (a +:+ b) +:+ c = a +:+ (b +:+ c).
Proof.
  induction a as [|x a IH]; [reflexivity |].
  now rewrite !app_cons, IH.
Qed.

Lemma split_nl_nonempty (s : string) : split_nl s <> [].
Proof.
  destruct s as [|c s]; simpl; [discriminate |].
  destruct (Ascii.eqb c newline); [discriminate |].
  destruct (split_nl s); discriminate.
Qed.

(** A string is a single line when splitting leaves it whole. *)
Definition single_line (s : string) : Prop := split_nl s = [s].

Lemma split_nl_cons (c : ascii) (s : string) :
  Ascii.eqb c newline = false ->
  exists l ls, split_nl s = l :: ls /\ split_nl (String c s) = String c l :: ls.
Proof.
  intros Hc. simpl. rewrite Hc.
  destruct (split_nl s) as [|l ls] eqn:E.
  - now destruct (split_nl_nonempty s).
  - now exists l, ls.
Qed.

Lemma split_nl_lines (s : string) : Forall single_line (split_nl s).
Proof.
  induction s as [|c s IH].
  - constructor; [reflexivity | constructor].
  - simpl. destruct (Ascii.eqb c newline) eqn:Hc.
    + constructor; [reflexivity | exact IH].
    + destruct (split_nl s) as [|l ls] eqn:E.
      * now destruct (split_nl_nonempty s).
      * inversion IH as [|? ? Hl Hls]; subst.
        constructor; [| exact Hls].
        unfold single_line in *. simpl. rewrite Hc, Hl. reflexivity.
Qed.

Lemma join_nl_cons (l : string) (ls : list string) :
  ls <> [] -> join_nl (l :: ls) = l +:+ nl +:+ join_nl ls.
Proof. destruct ls; [congruence | reflexivity]. Qed.

Lemma join_nl_single (l : string) : join_nl [l] = l.
Proof. reflexivity. Qed.

Lemma join_split (s : string) : join_nl (split_nl s) = s.
Proof.
  induction s as [|c s IH]; [reflexivity |].
  cbn [split_nl]. destruct (Ascii.eqb c newline) eqn:Hc.
  - apply Ascii.eqb_eq in Hc. subst c.
    rewrite join_nl_cons by apply split_nl_nonempty.
    now rewrite IH.
  - destruct (split_nl s) as [|l ls] eqn:E.
    + now destruct (split_nl_nonempty s).
    + destruct ls as [|l' ls'].
      * rewrite join_nl_single in *. now rewrite IH.
      * rewrite join_nl_cons in IH by discriminate.
        rewrite join_nl_cons by discriminate.
        now rewrite app_cons, IH.
Qed.

Lemma split_nl_app (a b : string) :
  single_line a -> split_nl (a +:+ nl +:+ b) = a :: split_nl b.
Proof.
  unfold single_line. revert b. induction a as [|c a IH]; intros b Ha.
  - reflexivity.
  - simpl in Ha. destruct (Ascii.eqb c newline) eqn:Hc; [discriminate |].
    destruct (split_nl a) as [|l ls] eqn:E; [now destruct (split_nl_nonempty a) |].
    assert (l = a /\ ls = []) as [-> ->] by (split; congruence).
    change (String c a +:+ nl +:+ b) with (String c (a +:+ nl +:+ b)).
    simpl split_nl at 1. rewrite Hc.
    change (String newline b) with (nl +:+ b).
    now rewrite IH.
Qed.

Lemma split_join (ls : list string) :
  ls <> [] -> Forall single_line ls -> split_nl (join_nl ls) = ls.
Proof.
  induction ls as [|l ls IH]; [congruence |].
  intros _ H. inversion H as [|? ? Hl Hls]; subst.
  destruct ls as [|l' ls'].
  - exact Hl.
  - rewrite join_nl_cons by discriminate.
    rewrite split_nl_app by exact Hl.
    f_equal. apply IH; [discriminate | exact Hls].
Qed.

Lemma join_nl_app (l1 l2 : list string) :
  l1 <> [] -> l2 <> [] -> join_nl (l1 ++ l2) = join_nl l1 +:+ nl +:+ join_nl l2.
Proof.
  induction l1 as [|a l1 IH]; [congruence |].
  intros _ H2. destruct l1 as [|b l1].
  - simpl app. now rewrite join_nl_cons.
  - change ((a :: b :: l1) ++ l2) with (a :: ((b :: l1) ++ l2)).
    rewrite join_nl_cons by discriminate.
    rewrite IH by (discriminate || assumption).
    rewrite (join_nl_cons a (b :: l1)) by discriminate.
    now rewrite !app_assoc.
Qed.

(** Joining groups of lines that were each joined first gives the lines
    joined at once, as long as no group is empty. *)
Lemma join_nl_concat (groups : list (list string)) :
  Forall (fun g => g <> []) groups ->
  join_nl (map join_nl groups) = join_nl (concat groups).
Proof.
  induction groups as [|g gs IH]; [reflexivity |].
  intros H. inversion H as [|? ? Hg Hgs]; subst.
  destruct gs as [|g' gs'].
  - simpl. now rewrite app_nil_r.
  - change (map join_nl (g :: g' :: gs')) with (join_nl g :: map join_nl (g' :: gs')).
    rewrite join_nl_cons by discriminate.
    rewrite IH by exact Hgs.
    change (concat (g :: g' :: gs')) with (g ++ concat (g' :: gs')).
    rewrite join_nl_app; [reflexivity | exact Hg |].
    inversion Hgs; subst. simpl. destruct g'; [congruence | discriminate].
Qed.

Lemma split_nl_concat (groups : list (list string)) :
  Forall (fun g => g <> []) groups ->
  Forall (Forall single_line) groups ->
  concat (map split_nl (map join_nl groups)) = concat groups.
Proof.
  induction 1 as [|g gs Hg _ IH]; intros HF; [reflexivity |].
  inversion HF; subst. simpl. rewrite split_join by assumption.
  f_equal. now apply IH.
Qed.

(** The length of joined lines: every line with its newline, less one. *)
Fixpoint lines_len (ls : list string) : Z :=
  match ls with
  | [] => 0
  | l :: ls' => len l + 1 + lines_len ls'
  end.

Lemma lines_len_app (a b : list string) : lines_len (a ++ b) = lines_len a + lines_len b.
Proof. induction a as [|x a IH]; simpl; [reflexivity | rewrite IH; lia]. Qed.

Lemma len_join_nl (ls : list string) : ls <> [] -> len (join_nl ls) = lines_len ls - 1.
Proof.
  induction ls as [|l ls IH]; [congruence |]. intros _.
  destruct ls as [|l' ls'].
  - rewrite join_nl_single. cbn [lines_len]. lia.
  - rewrite join_nl_cons by discriminate.
    rewrite !len_app, len_nl, IH by discriminate.
    cbn [lines_len]. lia.
Qed.

Lemma len_nonneg (s : string) : 0 <= len s.
Proof. unfold len. lia. Qed.

End PyStrFacts.

(** ** The chunker keeps the lines and bounds the chunks *)

Module ChunkerFacts.
Import PyStr PyStrFacts Chunker.

(** The lines read so far are the lines of the committed chunks, group by
    group, followed by the lines of the running chunk. *)
Record grouped (processed : list string) (st : splitter) (groups : list (list string)) : Prop := {
  grouped_chunks : map fst (chunks st) = map join_nl groups;
  grouped_nonempty : Forall (fun g => g <> []) groups;
  grouped_lines : concat groups ++ current_chunk st = processed
}.

Lemma grouped_init : grouped [] splitter_init [].
Proof. split; [reflexivity | constructor | reflexivity]. Qed.

Lemma grouped_commit base_id processed st groups :
  current_chunk st <> [] ->
  grouped processed st groups ->
  grouped processed (commit base_id st) (groups ++ [current_chunk st]).
Proof.
  intros Hne [Hc Hn Hl]. split; cbn [commit chunks current_chunk].
  - rewrite !List.map_app, Hc. reflexivity.
  - apply Forall_app; split; [exact Hn | now constructor].
  - rewrite concat_app. cbn [concat]. now rewrite !List.app_nil_r.
Qed.

Lemma grouped_step base_id limit processed st groups line :
  grouped processed st groups ->
  exists groups', grouped (processed ++ [line]) (splitter_step base_id limit st line) groups'.
Proof.
  intros G. unfold splitter_step.
  destruct (current_len st + (len line + 1) >? limit);
    [destruct (current_chunk st) as [|c cs] eqn:E |].
  - exists groups. destruct G as [Hc Hn Hl]. split; cbn; auto.
    rewrite E in *. now rewrite <- Hl, <- List.app_assoc.
  - exists (groups ++ [current_chunk st]).
    assert (Hne : current_chunk st <> []) by (rewrite E; discriminate).
    destruct (grouped_commit base_id _ _ _ Hne G) as [Hc Hn Hl].
    rewrite E in *. split; cbn [chunks current_chunk]; auto.
    cbn [commit current_chunk] in *. rewrite List.app_nil_r in Hl.
    now rewrite <- Hl.
  - exists groups. destruct G as [Hc Hn Hl]. split; cbn; auto.
    now rewrite <- Hl, <- List.app_assoc.
Qed.

Lemma grouped_fold base_id limit lines : forall processed st groups,
  grouped processed st groups ->
  exists groups',
    grouped (processed ++ lines) (fold_left (splitter_step base_id limit) lines st) groups'.
Proof.
  induction lines as [|l lines IH]; intros processed st groups G.
  - exists groups. now rewrite List.app_nil_r.
  - destruct (grouped_step base_id limit _ _ _ l G) as [g1 G1].
    destruct (IH _ _ _ G1) as [g2 G2].
    exists g2. cbn [fold_left]. now rewrite <- List.app_assoc in G2.
Qed.

Lemma grouped_flush base_id processed st groups :
  grouped processed st groups ->
  exists groups',
    map fst (flush base_id st) = map join_nl groups'
    /\ Forall (fun g => g <> []) groups'
    /\ concat groups' = processed.
Proof.
  intros G. unfold flush. destruct (current_chunk st) as [|c cs] eqn:E.
  - destruct G as [Hc Hn Hl]. exists groups. rewrite E, List.app_nil_r in Hl. auto.
  - assert (Hne : current_chunk st <> []) by (rewrite E; discriminate).
    destruct (grouped_commit base_id _ _ _ Hne G) as [Hc Hn Hl].
    exists (groups ++ [current_chunk st]).
    cbn [commit current_chunk] in Hl. rewrite List.app_nil_r in Hl. auto.
Qed.

(** The chunks of [_text_splitter] are joined groups of the lines of the
    text, taken in order, none of them empty. *)
Lemma text_splitter_groups (text base_id : string) (limit : Z) :
  exists groups,
    map fst (_text_splitter text base_id limit) = map join_nl groups
    /\ Forall (fun g => g <> []) groups
    /\ concat groups = split_nl text.
Proof.
  unfold _text_splitter. destruct (len text <=? limit).
  - exists [split_nl text]. cbn [map concat]. rewrite join_split, List.app_nil_r.
    repeat split; auto. constructor; [apply split_nl_nonempty | constructor].
  - destruct (grouped_fold base_id limit (split_nl text) _ _ _ grouped_init) as [g G].
    exact (grouped_flush base_id _ _ _ G).
Qed.

(** C6.  For every segment [text] and every [limit], the chunks that
    [_text_splitter] produces, joined by newlines, are the segment again,
    and their lines, chunk after chunk, are exactly the lines of the
    segment: no line is altered, duplicated, split or dropped.  (The
    chunker drops nothing; chunks that sanitise to the empty string are
    left out later, by [run_indexing].) *)
Theorem text_splitter_keeps_lines (text base_id : string) (limit : Z) :
  let texts := map fst (_text_splitter text base_id limit) in
  join_nl texts = text /\ concat (map split_nl texts) = split_nl text.
Proof.
  destruct (text_splitter_groups text base_id limit) as (groups & Hc & Hn & Hl).
  cbv zeta. rewrite Hc. split.
  - rewrite join_nl_concat by exact Hn. rewrite Hl. apply join_split.
  - rewrite split_nl_concat; [exact Hl | exact Hn |].
    assert (HF : Forall single_line (concat groups)) by (rewrite Hl; apply split_nl_lines).
    clear -HF. induction groups as [|g gs IH]; [constructor |].
    cbn [concat] in HF. apply Forall_app in HF as [Hg Hgs].
    constructor; [exact Hg | now apply IH].
Qed.

(** A chunk is within the limit, or it is one line that was kept whole. *)
Definition chunk_ok (limit : Z) (c : string) : Prop :=
  len c <= limit \/ single_line c.

Definition running_ok (limit : Z) (cur : list string) : Prop :=
  cur = [] \/ (exists l, cur = [l] /\ single_line l) \/ lines_len cur <= limit.

Record bounded (limit : Z) (st : splitter) : Prop := {
  bounded_chunks : Forall (fun c => chunk_ok limit (fst c)) (chunks st);
  bounded_len : current_len st = lines_len (current_chunk st);
  bounded_running : running_ok limit (current_chunk st)
}.

Lemma running_ok_join limit cur :
  cur <> [] -> running_ok limit cur -> chunk_ok limit (join_nl cur).
Proof.
  intros Hne [H | [(l & -> & Hl) | H]]; [congruence | now right | left].
  rewrite len_join_nl by exact Hne. lia.
Qed.

Lemma bounded_init limit : bounded limit splitter_init.
Proof. split; [constructor | reflexivity | now left]. Qed.

Lemma bounded_commit base_id limit st :
  current_chunk st <> [] -> bounded limit st -> bounded limit (commit base_id st).
Proof.
  intros Hne [Hc Hl Hr]. split; cbn [commit chunks current_chunk current_len].
  - apply Forall_app; split; [exact Hc |].
    constructor; [| constructor]. now apply running_ok_join.
  - reflexivity.
  - now left.
Qed.

Lemma bounded_step base_id limit st line :
  single_line line -> bounded limit st -> bounded limit (splitter_step base_id limit st line).
Proof.
  intros Hline B. unfold splitter_step.
  destruct (current_len st + (len line + 1) >? limit) eqn:T;
    [destruct (current_chunk st) as [|c cs] eqn:E |].
  - destruct B as [Hc Hl Hr]. rewrite E in *. split; cbn; auto.
    + rewrite Hl. cbn. lia.
    + right; left. now exists line.
  - assert (Hne : current_chunk st <> []) by (rewrite E; discriminate).
    destruct (bounded_commit base_id limit st Hne B) as [Hc Hl Hr].
    split; cbn [chunks current_chunk current_len]; auto.
    + cbn. lia.
    + right; left. now exists line.
  - destruct B as [Hc Hl Hr]. split; cbn [chunks current_chunk current_len]; auto.
    + rewrite lines_len_app, Hl. cbn. lia.
    + right; right. rewrite lines_len_app, <- Hl. cbn.
      rewrite Z.gtb_ltb in T. apply Z.ltb_ge in T. lia.
Qed.

Lemma bounded_fold base_id limit lines : forall st,
  Forall single_line lines -> bounded limit st ->
  bounded limit (fold_left (splitter_step base_id limit) lines st).
Proof.
  induction lines as [|l lines IH]; intros st HF B; [exact B |].
  inversion HF; subst. cbn [fold_left]. apply IH; [assumption |].
  now apply bounded_step.
Qed.

Lemma text_splitter_bounded (text base_id : string) (limit : Z) :
  Forall (fun c => chunk_ok limit (fst c)) (_text_splitter text base_id limit).
Proof.
  unfold _text_splitter. destruct (len text <=? limit) eqn:T.
  - constructor; [| constructor]. left. cbn. lia.
  - pose proof (bounded_fold base_id limit (split_nl text) splitter_init
                  (split_nl_lines text) (bounded_init limit)) as B.
    unfold flush. destruct (current_chunk _) eqn:E.
    + apply (bounded_chunks _ _ B).
    + apply (bounded_chunks _ _ (bounded_commit base_id limit _ ltac:(rewrite E; discriminate) B)).
Qed.

(** Whatever holds of every chunk of [_text_splitter] holds of every chunk
    of [smart_chunk]. *)
Lemma smart_chunk_forall (P : chunk -> Prop) (limit : Z) :
  (forall text base_id, Forall P (_text_splitter text base_id limit)) ->
  forall raw_text, Forall P (smart_chunk raw_text limit).
Proof.
  intros HP raw_text. unfold smart_chunk.
  destruct (1 <? length (Re.split_file_markers raw_text))%nat; [| apply HP].
  generalize (Re.split_file_markers raw_text) as parts.
  assert (H0 : Forall P (@nil chunk)) by constructor. revert H0.
  generalize (@nil chunk) as cs. generalize "preamble"%string as h.
  intros h cs H0 parts. revert h cs H0.
  induction parts as [|p parts IH]; intros h cs H0; [exact H0 |].
  cbn [fold_left]. unfold part_step at 2.
  destruct (strip p) eqn:Ep; [now apply IH |].
  destruct (startswith _ _); apply IH; [exact H0 |].
  apply Forall_app; split; [exact H0 | apply HP].
Qed.

(** C7 as the claim states it fails: a line longer than the limit is one
    chunk, here ten characters against a limit of five. *)
Lemma long_line_exceeds_limit :
  smart_chunk "aaaaaaaaaa" 5 = [("aaaaaaaaaa"%string, "::main[0]"%string)]
  /\ len "aaaaaaaaaa" = 10
  /\ ~ (forall (raw_text : string) (limit : Z),
          Forall (fun c => len (fst c) <= limit) (smart_chunk raw_text limit)).
Proof.
  split; [reflexivity |]. split; [reflexivity |].
  intros H. specialize (H "aaaaaaaaaa"%string 5).
  apply Forall_inv in H. vm_compute in H. now apply H.
Qed.

(** C7, amended.  For every raw text and every limit, every chunk of
    [smart_chunk] has length at most the limit or is a single line, kept
    whole because a line is never split; a segment within the limit is
    emitted unchanged; and in an over-limit segment the running chunk, when
    it is not empty, is committed whenever the next line with its newline
    would take the running length over the limit. *)
Theorem chunks_bounded_or_whole_line (raw_text text base_id : string) (limit : Z) :
  Forall (fun c => len (fst c) <= limit \/ single_line (fst c)) (smart_chunk raw_text limit)
  /\ (len text <= limit ->
      _text_splitter text base_id limit = [(text, plain_suffix base_id)])
  /\ (forall st line,
        current_chunk st <> [] ->
        current_len st + (len line + 1) > limit ->
        splitter_step base_id limit st line =
          {| chunks := chunks st ++ [(join_nl (current_chunk st), indexed_suffix base_id (chunk_idx st))];
             current_chunk := [line];
             current_len := len line + 1;
             chunk_idx := S (chunk_idx st) |}).
Proof.
  split; [| split].
  - apply smart_chunk_forall. intros. apply text_splitter_bounded.
  - intros H. unfold _text_splitter.
    destruct (len text <=? limit) eqn:T; [reflexivity |].
    apply Z.leb_gt in T. lia.
  - intros st line Hne Hlen. unfold splitter_step.
    destruct (current_len st + (len line + 1) >? limit) eqn:T.
    + destruct (current_chunk st) eqn:E; [congruence |].
      cbn [commit chunks current_chunk current_len chunk_idx]. now rewrite E.
    + rewrite Z.gtb_ltb in T. apply Z.ltb_ge in T. lia.
Qed.

Lemma chunks_bounded_or_whole_line_witness :
  len "ab" <= 5
  /\ _text_splitter "ab" "main" 5 = [("ab"%string, plain_suffix "main")].
Proof.
  assert (H : len "ab" <= 5) by (vm_compute; discriminate).
  split; [exact H |].
  exact (proj1 (proj2 (chunks_bounded_or_whole_line "ab" "ab" "main" 5)) H).
Defined.

End ChunkerFacts.

(** ** Stand-ins for the external libraries

    Small executable instances of the interfaces, used to run the model on
    concrete inputs.  Scores are integers, the sort is a stable insertion
    sort (what numpy's quicksort does on the short arrays used here), the
    normalisations are the identity and the digest is the text itself. *)

Module Fixture.

Fixpoint insert_by (a : list Z) (i : nat) (l : list nat) : list nat :=
  match l with
  | [] => [i]
  | j :: l' => if nth i a 0 <=? nth j a 0 then i :: l else j :: insert_by a i l'
  end.

Definition stable_argsort (a : list Z) : list nat :=
  fold_right (insert_by a) [] (seq 0 (length a)).

Fixpoint int_dot (r q : list Z) : Z :=
  match r, q with
  | x :: r', y :: q' => x * y + int_dot r' q'
  | _, _ => 0
  end.

Lemma insert_by_perm a i l : Permutation (insert_by a i l) (i :: l).
Proof.
  induction l as [|j l IH]; cbn [insert_by]; [reflexivity |].
  destruct (nth i a 0 <=? nth j a 0); [reflexivity |].
  rewrite IH. apply perm_swap.
Qed.

Lemma insert_by_sorted a i l :
  StronglySorted (fun x y => nth x a 0 <= nth y a 0) l ->
  StronglySorted (fun x y => nth x a 0 <= nth y a 0) (insert_by a i l).
Proof.
  induction 1 as [|j l Hl IH Hj]; cbn [insert_by].
  - constructor; constructor.
  - destruct (nth i a 0 <=? nth j a 0) eqn:E.
    + apply Z.leb_le in E. constructor; [now constructor |].
      constructor; [exact E |].
      eapply List.Forall_impl; [| exact Hj]. cbv beta. intros; lia.
    + apply Z.leb_gt in E. constructor; [exact IH |].
      eapply Permutation_Forall; [symmetry; apply insert_by_perm |].
      constructor; [lia | exact Hj].
Qed.

Lemma stable_argsort_perm a : Permutation (stable_argsort a) (seq 0 (length a)).
Proof.
  unfold stable_argsort. induction (seq 0 (length a)) as [|i l IH]; [reflexivity |].
  cbn [fold_right]. rewrite insert_by_perm. now constructor.
Qed.

Lemma stable_argsort_sorted a :
  StronglySorted
    (fun i j => forall x y, nth_error a i = Some x -> nth_error a j = Some y -> (x <=? y) = true)
    (stable_argsort a).
Proof.
  assert (H : StronglySorted (fun x y => nth x a 0 <= nth y a 0) (stable_argsort a)).
  { unfold stable_argsort. induction (seq 0 (length a)) as [|i l IH]; [constructor |].
    cbn [fold_right]. now apply insert_by_sorted. }
  induction H as [|i l Hl IH Hi]; constructor; [exact IH |].
  eapply List.Forall_impl; [| exact Hi]. cbv beta. intros j Hij x y Hx Hy.
  apply (nth_error_nth _ _ 0) in Hx, Hy. apply Z.leb_le. lia.
Qed.

#[export] Instance numpy : Numpy := {|
  float32 := Z;
  sort_le := Z.leb;
  sort_le_total := fun a b => ltac:(destruct (Z.leb_spec a b); [left | right; apply Z.leb_le]; lia || reflexivity);
  sort_le_trans := fun a b c H1 H2 =>
    proj2 (Z.leb_le a c) (Z.le_trans _ _ _ (proj1 (Z.leb_le a b) H1) (proj1 (Z.leb_le b c) H2));
  argsort := stable_argsort;
  argsort_perm := stable_argsort_perm;
  argsort_sorted := stable_argsort_sorted;
  normalize_rows := fun m => m;
  normalize_rows_length := fun m => eq_refl;
  normalize := fun q => q;
  normalize_length := fun q => eq_refl;
  dot := fun m q => map (fun r => int_dot r q) m;
  dot_length := fun m q => length_map _ m
|}.

#[export] Instance hashlib : Hashlib := {| md5_hexdigest := fun text => text |}.

(** A service that answers every text with the vector of the requested
    length filled with the length of the text. *)
#[export] Instance client : EmbeddingClient := {|
  embed_content := fun _ contents dim =>
    EmbedReturns (map (fun t => repeat (Z.of_nat (String.length t)) (Z.to_nat dim)) contents)
|}.

(** A service that is down. *)
Definition client_down : EmbeddingClient := {|
  embed_content := fun _ _ _ => EmbedRaises "503 UNAVAILABLE"
|}.

#[export] Instance refrag : Refrag := {| refrag_import := None |}.

#[export] Instance pool : ThreadPool := {|
  as_completed := fun A l => l;
  as_completed_perm := fun A l => Permutation_refl l
|}.

#[export] Instance pickle : Pickle Index.t := {|
  pickle_dumps := fun d => map (fun _ => Byte.x2e) d
|}.

End Fixture.

(** ** The checkpoint on disk *)

Module SaveFacts.
Import Indexer.

Section WithServices.
Context `{np : Numpy} {pk : Pickle Index.t}.

(** What is found under the snapshot's name wherever a save stops: the new
    bytes after a complete save, the old file as it was while only the
    temporary file has been touched, and nothing at all once the old file
    is unlinked and the rename has not run. *)
Lemma save_try_snapshot (c : Fs.cut) (temp_file index_file : string)
    (data : list Byte.byte) (d : Fs.disk) :
  temp_file <> index_file ->
  fst (save_try c temp_file index_file data d) !! index_file =
    match c with
    | Fs.NoCut => Some data
    | Fs.CutAfterUnlink => None
    | _ => d !! index_file
    end.
Proof.
  intros Hne. unfold save_try, Fs.write_file, Fs.exists_, Fs.unlink, Fs.rename.
  destruct c; cbn [fst]; simplify_map_eq; try reflexivity.
  - destruct (d !! index_file) eqn:E; by simplify_map_eq.
  - destruct (d !! index_file) eqn:E; by simplify_map_eq.
Qed.

Lemma save_try_finished (c : Fs.cut) (temp_file index_file : string)
    (data : list Byte.byte) (d : Fs.disk) :
  temp_file <> index_file ->
  snd (save_try c temp_file index_file data d) =
    match c with Fs.NoCut => true | _ => false end.
Proof.
  intros Hne. unfold save_try, Fs.write_file, Fs.exists_, Fs.unlink, Fs.rename.
  destruct c; cbn [snd]; simplify_map_eq; try reflexivity.
  - destruct (d !! index_file) eqn:E; by simplify_map_eq.
  - destruct (d !! index_file) eqn:E; by simplify_map_eq.
Qed.

End WithServices.

(** C1, on the input where it fails.  A store with one unsaved change is
    saved over an existing snapshot, and the save stops after the old
    snapshot is unlinked and before the rename.  The disk then holds no
    file under the snapshot's name: the previous version is gone and the
    new one is only in the temporary file. *)
Theorem save_index_loses_snapshot (np : Numpy) (pk : Pickle Index.t)
    (ix : Index.t) (old : list Byte.byte) :
  let s := {| dimension := DEFAULT_DIMENSION; index_file := "/data/mrl_index.pkl";
              index := ix; _unsaved_changes := 1;
              _matrix_cache := None; _paths_cache := None |} in
  let w := {| self := s; disk := {[ "/data/mrl_index.pkl"%string := old ]};
              api_calls := []; console := []; cuts := [Fs.CutAfterUnlink] |} in
  exists w',
    save_index w = Some w'
    /\ disk w' !! "/data/mrl_index.pkl"%string = None
    /\ disk w' !! "/data/mrl_index.tmp"%string = Some (pickle_dumps ix)
    /\ console w' = [SaySaveFailed].
Proof.
  cbv zeta. eexists. split; [reflexivity |].
  cbn. repeat split; reflexivity.
Qed.

End SaveFacts.

(** ** Sorting, slicing and the dictionary *)

Module ListFacts.

Lemma StronglySorted_snoc {A : Type} (R : A -> A -> Prop) (l : list A) (x : A) :
  StronglySorted R l -> Forall (fun y => R y x) l -> StronglySorted R (l ++ [x]).
Proof.
  induction 1 as [|y l Hl IH Hy]; intros HF; cbn [app].
  - constructor; constructor.
  - inversion HF; subst. constructor; [now apply IH |].
    apply Forall_app; split; [exact Hy | now constructor].
Qed.

Lemma StronglySorted_rev {A : Type} (R : A -> A -> Prop) (l : list A) :
  StronglySorted R l -> StronglySorted (fun x y => R y x) (rev l).
Proof.
  induction 1 as [|x l Hl IH Hx]; cbn [rev]; [constructor |].
  apply StronglySorted_snoc; [exact IH |].
  apply List.Forall_forall. intros y Hy. apply in_rev in Hy.
  rewrite List.Forall_forall in Hx. now apply Hx.
Qed.

Lemma StronglySorted_firstn {A : Type} (R : A -> A -> Prop) (n : nat) (l : list A) :
  StronglySorted R l -> StronglySorted R (firstn n l).
Proof.
  intros H. revert n. induction H as [|x l Hl IH Hx]; intros [|n]; cbn [firstn]; try constructor.
  - apply IH.
  - apply List.Forall_forall. intros y Hy. rewrite List.Forall_forall in Hx.
    apply Hx. revert Hy. clear. revert n. induction l as [|z l IH]; intros [|n]; cbn; try tauto.
    intros [H | H]; [now left | right; eauto].
Qed.

Lemma StronglySorted_split {A : Type} (R : A -> A -> Prop) (l1 l2 : list A) :
  StronglySorted R (l1 ++ l2) -> forall x y, In x l1 -> In y l2 -> R x y.
Proof.
  induction l1 as [|a l1 IH]; cbn [app]; intros H x y Hx Hy; [destruct Hx |].
  inversion H as [|? ? Hs Ha]; subst. destruct Hx as [-> | Hx].
  - rewrite List.Forall_forall in Ha. apply Ha, in_or_app. now right.
  - now apply IH.
Qed.

Lemma in_firstn {A : Type} (n : nat) (l : list A) (x : A) : In x (firstn n l) -> In x l.
Proof.
  revert n. induction l as [|z l IH]; intros [|n]; cbn; try tauto.
  intros [H | H]; [now left | right; eauto].
Qed.

Lemma NoDup_firstn {A : Type} (n : nat) (l : list A) :
  List.NoDup l -> List.NoDup (firstn n l).
Proof.
  intros H. revert n. induction H as [|x l Hx Hl IH]; intros [|n]; cbn [firstn]; try constructor.
  - intros Hin. apply Hx. eapply in_firstn, Hin.
  - apply IH.
Qed.

End ListFacts.

Module IndexFacts.
Section WithNumpy.
Context `{Numpy}.

Lemma get_set (k k' : string) (e : Index.entry) (d : Index.t) :
  Index.get k (Index.set k' e d) = if String.eqb k k' then Some e else Index.get k d.
Proof.
  induction d as [|[k0 e0] d IH]; cbn [Index.set Index.get].
  - destruct (String.eqb k k'); reflexivity.
  - destruct (String.eqb k' k0) eqn:E0; cbn [Index.get].
    + apply String.eqb_eq in E0. subst k0.
      destruct (String.eqb k k'); reflexivity.
    + destruct (String.eqb k k0) eqn:E1.
      * apply String.eqb_eq in E1. subst k0.
        now rewrite String.eqb_sym, E0.
      * exact IH.
Qed.


End WithNumpy.
End IndexFacts.

(** ** The funnel search *)

Module SearchFacts.
Import Indexer ListFacts.

Section WithServices.
Context `{np : Numpy} {ec : EmbeddingClient}.

(** Position [i] does not score below position [j]. *)
Definition ranks_above (scores : list float32) (i j : nat) : Prop :=
  forall y x, nth_error scores j = Some y -> nth_error scores i = Some x -> sort_le y x = true.

Lemma argsort_length (a : list float32) : length (argsort a) = length a.
Proof. rewrite (Permutation_length (argsort_perm a)). apply length_seq. Qed.

Lemma argsort_in (a : list float32) (i : nat) : In i (argsort a) <-> (i < length a)%nat.
Proof.
  split; intros Hi.
  - apply (Permutation_in _ (argsort_perm a)), in_seq in Hi. lia.
  - apply (Permutation_in _ (Permutation_sym (argsort_perm a))), in_seq. lia.
Qed.

Lemma argsort_nodup (a : list float32) : List.NoDup (argsort a).
Proof.
  apply (Permutation_NoDup (Permutation_sym (argsort_perm a))), seq_NoDup.
Qed.

(** [np.argsort(a)[::-1]]: every position, best score first. *)
Lemma ranking_sorted (a : list float32) : StronglySorted (ranks_above a) (rev (argsort a)).
Proof. apply (StronglySorted_rev _ _ (argsort_sorted a)). Qed.

Lemma slice_to_prefix {A : Type} (k : Z) (l : list A) : exists n, slice_to k l = firstn n l.
Proof. unfold slice_to. destruct (0 <=? k); eauto. Qed.

Lemma slice_to_length {A : Type} (k : Z) (l : list A) :
  0 <= k -> length (slice_to k l) = Nat.min (Z.to_nat k) (length l).
Proof.
  intros Hk. unfold slice_to. destruct (0 <=? k) eqn:E.
  - apply length_firstn.
  - apply Z.leb_gt in E. lia.
Qed.

(** The positions kept by a slice of a ranking: distinct, in range, best
    first, and every position left out ranks below every position kept. *)
Lemma ranking_slice (a : list float32) (k : Z) :
  let kept := slice_to k (rev (argsort a)) in
  List.NoDup kept
  /\ Forall (fun i => (i < length a)%nat) kept
  /\ StronglySorted (ranks_above a) kept
  /\ (forall i j, In i kept -> (j < length a)%nat -> ~ In j kept -> ranks_above a i j).
Proof.
  cbv zeta. destruct (slice_to_prefix k (rev (argsort a))) as [n ->].
  repeat split.
  - apply NoDup_firstn, NoDup_rev, argsort_nodup.
  - apply List.Forall_forall. intros i Hi.
    apply in_firstn, in_rev in Hi. now apply argsort_in.
  - apply StronglySorted_firstn, ranking_sorted.
  - intros i j Hi Hj Hnot.
    pose proof (ranking_sorted a) as HS.
    rewrite <- (firstn_skipn n (rev (argsort a))) in HS.
    apply (StronglySorted_split _ _ _ HS); [exact Hi |].
    assert (Hin : In j (rev (argsort a))) by (apply -> in_rev; now apply argsort_in).
    rewrite <- (firstn_skipn n (rev (argsort a))) in Hin.
    apply in_app_or in Hin as [Hin | Hin]; [contradiction | exact Hin].
Qed.

Lemma np_dot_length (m : ndarray) (q scores : list float32) :
  np_dot m q = Some scores -> length scores = length (rows m).
Proof.
  unfold np_dot. destruct (ncols m =? length q)%nat; [| discriminate].
  intros [= <-]. apply dot_length.
Qed.

Lemma stage1_inv (paths : list string) (matrix : ndarray) (q_vec : list float32) (top_k : Z)
    (scores : list float32) (cands : list nat) :
  stage1 paths matrix q_vec top_k = Some (scores, cands) ->
  length scores = length (rows matrix)
  /\ cands = slice_to (Z.min (top_k * SHORTLIST_FACTOR) (Z.of_nat (length paths)))
               (rev (argsort scores)).
Proof.
  unfold stage1. destruct (np_dot _ _) as [s|] eqn:E; [| discriminate].
  intros [= <- <-]. split; [| reflexivity].
  apply np_dot_length in E. cbn [normalize_matrix columns_to rows] in E.
  now rewrite E, normalize_rows_length, length_map.
Qed.

Lemma take_rows_length (m sub : ndarray) (idxs : list nat) :
  take_rows m idxs = Some sub -> length (rows sub) = length idxs /\ ncols sub = ncols m.
Proof.
  unfold take_rows. destruct (mapM _ idxs) as [rs|] eqn:E; [| discriminate].
  intros [= <-]. cbn. split; [| reflexivity].
  apply mapM_Some_1, Forall2_length in E. now symmetry.
Qed.

Lemma stage2_inv (matrix : ndarray) (q_vec : list float32) (top_k : Z)
    (cands : list nat) (scores : list float32) (order : list nat) :
  stage2 matrix q_vec top_k cands = Some (scores, order) ->
  length scores = length cands
  /\ order = slice_to top_k (rev (argsort scores)).
Proof.
  unfold stage2. destruct (take_rows matrix cands) as [sub|] eqn:Et; [| discriminate].
  destruct (np_dot _ _) as [s|] eqn:E; [| discriminate].
  intros [= <- <-]. split; [| reflexivity].
  apply np_dot_length in E. cbn [normalize_matrix rows] in E.
  rewrite E, normalize_rows_length. now apply take_rows_length in Et.
Qed.

Lemma collect_hits_in (s : indexer) (paths : list string) (f : funnel) (order : list nat) (h : hit) :
  In h (collect_hits s paths f order) ->
  exists idx, In idx order /\ make_hit s paths f idx = Some h.
Proof.
  induction order as [|i order IH]; cbn [collect_hits]; [intros [] |].
  destruct (make_hit s paths f i) as [h0|] eqn:E; [| intros []].
  intros [<- | Hin].
  - exists i. split; [now left | exact E].
  - destruct (IH Hin) as (idx & Hidx & Hm). exists idx. split; [now right | exact Hm].
Qed.


Lemma make_hit_inv (s : indexer) (paths : list string) (f : funnel) (idx : nat) (h : hit) :
  make_hit s paths f idx = Some h ->
  exists g,
    nth_error (candidate_idxs f) idx = Some g
    /\ nth_error paths g = Some (hit_path h)
    /\ nth_error (scores_full f) idx = Some (hit_score h).
Proof.
  unfold make_hit.
  destruct (nth_error (candidate_idxs f) idx) as [g|] eqn:Eg; [| discriminate].
  destruct (nth_error paths g) as [p|] eqn:Ep; [| discriminate].
  destruct (nth_error (scores_full f) idx) as [x|] eqn:Ex; [| discriminate].
  destruct (Index.get p (index s)); [| discriminate].
  intros [= <-]. exists g. cbn [hit_path hit_score]. auto.
Qed.

(** What [search] returns: the empty list on each of its early exits, the
    collected hits of the funnel otherwise. *)
Lemma search_cases (query : string) (top_k : Z) (w : world) :
  fst (search query top_k w) = Returns []
  \/ exists q_vec s paths matrix f,
       index (self w) <> []
       /\ embed_query (dimension (self w)) query = inr q_vec
       /\ prepare_matrix (self w) = (s, Some (paths, matrix))
       /\ run_funnel paths matrix q_vec top_k = Some f
       /\ fst (search query top_k w) = Returns (collect_hits s paths f (final_order f)).
Proof.
  unfold search. destruct (index (self w)) as [|kv ix] eqn:Ei; [now left |].
  cbn [log_call self]. destruct (embed_query _ _) as [e | q_vec] eqn:Eq; [now left |].
  destruct (prepare_matrix (self w)) as [s [[paths matrix]|]] eqn:Ep; [| now left].
  destruct (run_funnel paths matrix q_vec top_k) as [f|] eqn:Ef; [| now left].
  right. exists q_vec, s, paths, matrix, f. repeat split; auto.
Qed.

Lemma run_funnel_inv (paths : list string) (matrix : ndarray) (q_vec : list float32)
    (top_k : Z) (f : funnel) :
  run_funnel paths matrix q_vec top_k = Some f ->
  stage1 paths matrix q_vec top_k = Some (scores_short f, candidate_idxs f)
  /\ stage2 matrix q_vec top_k (candidate_idxs f) = Some (scores_full f, final_order f).
Proof.
  unfold run_funnel.
  destruct (stage1 _ _ _ _) as [[s1 cands]|]; [| discriminate].
  destruct (stage2 _ _ _ _) as [[s2 order]|] eqn:E2; [| discriminate].
  intros [= <-]. cbn. auto.
Qed.

(** C9.  On an empty store [search] returns the empty list for every query
    and every [top_k]: it only prints that the index is empty, raises
    nothing and sends nothing to the embedding service. *)
Theorem search_empty_store (query : string) (top_k : Z) (w : world) :
  index (self w) = [] ->
  search query top_k w = (Returns [], print SayIndexEmpty w)
  /\ api_calls (snd (search query top_k w)) = api_calls w.
Proof.
  intros He. unfold search. rewrite He. split; reflexivity.
Qed.

(** C2, amended.  On a non-empty store, when the embedding call for the
    query raises, [search] catches the exception, prints the search error
    and returns the empty list: the caller gets [[]], not an error. *)
Theorem search_embedding_failure_returns_empty
    (query : string) (top_k : Z) (w : world) (message : string) :
  index (self w) <> [] ->
  embed_content DEFAULT_MODEL [query] (dimension (self w)) = EmbedRaises message ->
  search query top_k w
  = (Returns [], print (SaySearchError message) (log_call [query] w)).
Proof.
  intros Hne He. unfold search. destruct (index (self w)); [congruence |].
  cbn [log_call self]. unfold embed_query. now rewrite He.
Qed.

(** C4.  Whatever [search] returns, every hit is a stage-1 candidate: its
    path is the key at a position of [candidate_idxs], reached through a
    position of [final_order], and its score is the stage-2 score computed
    for that candidate.  Stage 2 scores the rows of the candidates and
    nothing else, one score per candidate. *)
Theorem search_hits_within_shortlist (query : string) (top_k : Z) (w : world) :
  fst (search query top_k w) = Returns []
  \/ exists q_vec s paths matrix f,
       embed_query (dimension (self w)) query = inr q_vec
       /\ prepare_matrix (self w) = (s, Some (paths, matrix))
       /\ stage1 paths matrix q_vec top_k = Some (scores_short f, candidate_idxs f)
       /\ stage2 matrix q_vec top_k (candidate_idxs f) = Some (scores_full f, final_order f)
       /\ length (scores_full f) = length (candidate_idxs f)
       /\ fst (search query top_k w) = Returns (collect_hits s paths f (final_order f))
       /\ Forall (fun h =>
                    exists idx g,
                      In idx (final_order f)
                      /\ nth_error (candidate_idxs f) idx = Some g
                      /\ In g (candidate_idxs f)
                      /\ nth_error paths g = Some (hit_path h)
                      /\ nth_error (scores_full f) idx = Some (hit_score h))
                 (collect_hits s paths f (final_order f)).
Proof.
  destruct (search_cases query top_k w)
    as [H | (q_vec & s & paths & matrix & f & Hne & Hq & Hp & Hf & Hs)]; [now left |].
  right. exists q_vec, s, paths, matrix, f.
  destruct (run_funnel_inv _ _ _ _ _ Hf) as [H1 H2].
  repeat split; auto.
  - now apply stage2_inv in H2.
  - apply List.Forall_forall. intros h Hh.
    destruct (collect_hits_in _ _ _ _ _ Hh) as (idx & Hidx & Hm).
    destruct (make_hit_inv _ _ _ _ _ Hm) as (g & Hg & Hpath & Hscore).
    exists idx, g. repeat split; auto. eapply nth_error_In, Hg.
Qed.

(** The size of the shortlist and the range of its positions. *)
Lemma shortlist_size (paths : list string) (matrix : ndarray)
    (q_vec : list float32) (top_k : Z) (scores : list float32) (cands : list nat) :
  0 <= top_k ->
  length paths = length (rows matrix) ->
  stage1 paths matrix q_vec top_k = Some (scores, cands) ->
  length scores = length paths
  /\ Z.of_nat (length cands) = Z.min (top_k * SHORTLIST_FACTOR) (Z.of_nat (length paths))
  /\ Forall (fun i => (i < length paths)%nat) cands.
Proof.
  intros Hk Hlen H1. apply stage1_inv in H1 as [Hs ->].
  rewrite <- Hlen in Hs. split; [exact Hs |]. split.
  - rewrite slice_to_length, length_rev, argsort_length, Hs by (unfold SHORTLIST_FACTOR; lia).
    unfold SHORTLIST_FACTOR. lia.
  - rewrite <- Hs. apply ranking_slice.
Qed.

(** C5, amended.  For a non-negative [top_k], the shortlist of stage 1
    holds [min(top_k * 15, total)] distinct positions, in descending order
    of their low-dimension scores, and no position left out scores above a
    position kept.  Which of several positions with equal scores comes
    first, or is kept, is left to [np.argsort]. *)
Theorem shortlist_is_top_scores (paths : list string) (matrix : ndarray)
    (q_vec : list float32) (top_k : Z) (scores : list float32) (cands : list nat) :
  0 <= top_k ->
  length paths = length (rows matrix) ->
  stage1 paths matrix q_vec top_k = Some (scores, cands) ->
  length scores = length paths
  /\ Z.of_nat (length cands) = Z.min (top_k * SHORTLIST_FACTOR) (Z.of_nat (length paths))
  /\ List.NoDup cands
  /\ Forall (fun i => (i < length paths)%nat) cands
  /\ StronglySorted (ranks_above scores) cands
  /\ (forall i j, In i cands -> (j < length paths)%nat -> ~ In j cands -> ranks_above scores i j).
Proof.
  intros Hk Hlen H1.
  destruct (shortlist_size _ _ _ _ _ _ Hk Hlen H1) as (Hs & Hn & Hin).
  apply stage1_inv in H1 as [_ ->].
  pose proof (ranking_slice scores (Z.min (top_k * SHORTLIST_FACTOR) (Z.of_nat (length paths))))
    as (Hnd & _ & Hsorted & Htop).
  rewrite Hs in Htop.
  repeat split; auto.
Qed.

(** The caches, when both are set, are the ones derived from the index,
    and the matrix is never set without the key list. *)
Definition cache_fresh (s : indexer) : Prop :=
  match _paths_cache s, _matrix_cache s with
  | Some paths, Some matrix =>
      paths = Index.keys (index s)
      /\ np_stack (map Index.vector (Index.values (index s))) = Some matrix
  | None, Some _ => False
  | _, None => True
  end.








(** Freshness of the caches is an invariant: [search] keeps it, and so
    does every store of a result, which empties both caches. *)
Lemma cache_fresh_prepare (s : indexer) :
  cache_fresh s -> cache_fresh (fst (prepare_matrix s)).
Proof.
  unfold cache_fresh, prepare_matrix.
  destruct (_paths_cache s) as [paths|] eqn:Ep, (_matrix_cache s) as [matrix|] eqn:Em;
    cbn [fst _paths_cache _matrix_cache index]; try contradiction;
    try (rewrite Ep, Em; tauto);
    destruct (np_stack _); tauto.
Qed.

Lemma cache_fresh_store_result (r : string * list float32 * string * string) (s : indexer) :
  cache_fresh (store_result r s).
Proof. destruct r as [[[p v] h] sn]. exact I. Qed.

Lemma prints_self {A : Type} (f : A -> line) (l : list A) : forall w,
  self (fold_left (fun w a => print (f a) w) l w) = self w.
Proof. induction l as [|a l IH]; intros w; cbn [fold_left]; [reflexivity | now rewrite IH]. Qed.

Lemma cache_fresh_search (query : string) (top_k : Z) (w : world) :
  cache_fresh (self w) -> cache_fresh (self (snd (search query top_k w))).
Proof.
  intros Hc. unfold search. destruct (index (self w)); [exact Hc |].
  cbn [log_call self]. destruct (embed_query _ _); [exact Hc |].
  pose proof (cache_fresh_prepare _ Hc) as Hp.
  destruct (prepare_matrix (self w)) as [s [[paths matrix]|]]; cbn [fst] in Hp; [| exact Hp].
  destruct (run_funnel _ _ _ _); cbn [snd]; [| exact Hp].
  now rewrite prints_self.
Qed.



End WithServices.
End SearchFacts.

(** ** Concrete stores and queries *)

Module Scenario.
Import PyStr Indexer SearchFacts Fixture.

Definition entry_of (v : list Z) (text : string) : Index.entry :=
  {| Index.vector := v; Index.hash := text; Index.snippet := take 200 text |}.

Definition indexer_of (ix : Index.t) : indexer :=
  {| dimension := 2; index_file := "/data/mrl_index.pkl"; index := ix;
     _unsaved_changes := 0; _matrix_cache := None; _paths_cache := None |}.

Definition world_of (ix : Index.t) : world :=
  {| self := indexer_of ix; disk := ∅; api_calls := []; console := []; cuts := [] |}.

(** Three chunks with different vectors. *)
Definition three : Index.t :=
  [ ("/c/a.txt::main"%string, entry_of [3; 0] "alpha");
    ("/c/b.txt::main"%string, entry_of [1; 1] "beta");
    ("/c/c.txt::main"%string, entry_of [2; 5] "gamma") ].

(** Sixteen chunks with the same vector. *)
Definition sixteen : Index.t :=
  map (fun i => ("/c/f.txt::main["%string +:+ str_of_nat i +:+ "]"%string, entry_of [1; 0] "same"))
      (seq 0 16).

Definition paths_of (ix : Index.t) : list string := Index.keys ix.
Definition matrix_of (ix : Index.t) : ndarray :=
  {| rows := map Index.vector (Index.values ix); ncols := 2 |}.

Lemma search_empty_store_witness :
  index (self (world_of [])) = []
  /\ search "x" 5 (world_of []) = (Returns [], print SayIndexEmpty (world_of [])).
Proof.
  split; [reflexivity |].
  exact (proj1 (search_empty_store "x" 5 (world_of []) eq_refl)).
Defined.

(** C2 as the claim states it fails: with the service down, [search] on a
    store of three entries returns the empty list, the very value a search
    that ran through returns when nothing is asked for, and no error. *)
Lemma search_failure_is_an_empty_list :
  index (self (world_of three)) <> []
  /\ @embed_content numpy client_down DEFAULT_MODEL ["x"%string] 2 = EmbedRaises "503 UNAVAILABLE"
  /\ fst (@search numpy client_down "x" 5 (world_of three)) = Returns []
  /\ fst (@search numpy client "x" 0 (world_of three)) = Returns []
  /\ (forall message, fst (@search numpy client_down "x" 5 (world_of three)) <> Raises message)
  /\ ~ (forall (np : Numpy) (ec : EmbeddingClient) (query : string) (top_k : Z) (w : world)
               (message : string),
          index (self w) <> [] ->
          embed_content DEFAULT_MODEL [query] (dimension (self w)) = EmbedRaises message ->
          exists m, fst (search query top_k w) = Raises m).
Proof.
  assert (Hne : index (self (world_of three)) <> []) by discriminate.
  split; [exact Hne |]. split; [reflexivity |]. split; [reflexivity |].
  split; [reflexivity |]. split; [discriminate |].
  intros H.
  destruct (H numpy client_down "x"%string 5 (world_of three) "503 UNAVAILABLE"%string Hne eq_refl)
    as [m Hm].
  discriminate Hm.
Qed.

Lemma search_embedding_failure_returns_empty_witness :
  index (self (world_of three)) <> []
  /\ @search numpy client_down "x" 5 (world_of three)
     = (Returns [], print (SaySearchError "503 UNAVAILABLE") (log_call ["x"%string] (world_of three))).
Proof.
  assert (H : index (self (world_of three)) <> []) by discriminate.
  split; [exact H |].
  exact (@search_embedding_failure_returns_empty numpy client_down
           "x" 5 (world_of three) "503 UNAVAILABLE" H eq_refl).
Defined.

(** C5 as the claim states it fails: sixteen stored vectors are equal, so
    all sixteen stage-1 scores are equal; with [top_k = 1] and a stable
    [argsort] the shortlist keeps fifteen positions, the last one first, and
    leaves out position 0, the earliest of the key list.  So a tie is not
    always settled for the earlier position. *)
Lemma shortlist_tie_keeps_later_positions :
  (exists scores cands,
     stage1 (paths_of sixteen) (matrix_of sixteen) [1; 0] 1 = Some (scores, cands)
     /\ scores = repeat 1 16
     /\ cands = rev (seq 1 15)
     /\ In 15%nat cands
     /\ ~ In 0%nat cands)
  /\ ~ (forall (np : Numpy) (paths : list string) (matrix : ndarray)
               (q_vec : list float32) (top_k : Z) (scores : list float32) (cands : list nat),
          stage1 paths matrix q_vec top_k = Some (scores, cands) ->
          forall (i j : nat) (x : float32),
            (i < j)%nat ->
            nth_error scores i = Some x -> nth_error scores j = Some x ->
            In j cands -> In i cands).
Proof.
  assert (H1 : stage1 (paths_of sixteen) (matrix_of sixteen) [1; 0] 1
               = Some (repeat 1 16, rev (seq 1 15))) by (vm_compute; reflexivity).
  assert (H15 : In 15%nat (rev (seq 1 15))) by (cbn; tauto).
  assert (H0 : ~ In 0%nat (rev (seq 1 15))) by (cbn; intuition discriminate).
  split.
  - exists (repeat 1 16), (rev (seq 1 15)). repeat split; auto.
  - intros H. apply H0.
    apply (H numpy _ _ _ _ _ _ H1 0%nat 15%nat 1); [lia | reflexivity | reflexivity | exact H15].
Qed.

Lemma shortlist_is_top_scores_witness :
  0 <= 1
  /\ length (paths_of three) = length (rows (matrix_of three))
  /\ stage1 (paths_of three) (matrix_of three) [1; 2] 1 = Some ([3; 3; 12], [2; 1; 0]%nat)
  /\ Z.of_nat (length [2; 1; 0]%nat) = Z.min (1 * SHORTLIST_FACTOR) (Z.of_nat (length (paths_of three))).
Proof.
  assert (H0 : 0 <= 1) by lia.
  assert (H1 : length (paths_of three) = length (rows (matrix_of three))) by reflexivity.
  assert (H2 : stage1 (paths_of three) (matrix_of three) [1; 2] 1 = Some ([3; 3; 12], [2; 1; 0]%nat))
    by (vm_compute; reflexivity).
  split; [exact H0 |]. split; [exact H1 |]. split; [exact H2 |].
  exact (proj1 (proj2 (shortlist_is_top_scores _ _ _ _ _ _ H0 H1 H2))).
Defined.





End Scenario.

(** ** The indexing run *)

Module RunFacts.
Import PyStr Chunker Indexer.

Section WithServices.
Context `{np : Numpy} {hl : Hashlib} {ec : EmbeddingClient} {rf : Refrag} {tp : ThreadPool}.
Context {pk : Pickle Index.t}.

(** What a chunk adds to the queue: nothing when it sanitises to the empty
    string or is up to date, its key and clean text otherwise. *)
Definition pending (s : indexer) (path : string) (c : chunk) : list (string * string) :=
  match sanitize_content (fst c) with
  | EmptyString => []
  | clean_text =>
      if up_to_date s (path +:+ snd c) (get_file_hash clean_text) then []
      else [(path +:+ snd c, clean_text)]
  end.

Definition file_pending (s : indexer) (f : source_file) : list (string * string) :=
  match file_chunks f with
  | None => []
  | Some cs => flat_map (pending s (file_path f)) cs
  end.

(** Everything in the queue, in the order it was put there. *)
Definition queue_items (q : queue) : list (string * string) :=
  concat (tasks q) ++ current_batch q.

Lemma enqueue_chunk_items (s : indexer) (path : string) (q : queue) (c : chunk) :
  queue_items (enqueue_chunk s path q c) = queue_items q ++ pending s path c.
Proof.
  destruct c as [chunk_text chunk_suffix]. unfold enqueue_chunk, pending. cbn [fst snd].
  destruct (sanitize_content chunk_text) as [|a clean] eqn:E; [now rewrite List.app_nil_r |].
  destruct (up_to_date s _ _); [now rewrite List.app_nil_r |].
  unfold queue_items.
  destruct (BATCH_SIZE <=? _); cbn [tasks current_batch].
  - rewrite concat_app. cbn [concat]. now rewrite !List.app_nil_r, List.app_assoc.
  - now rewrite List.app_assoc.
Qed.

Lemma enqueue_chunks_items (s : indexer) (path : string) (cs : list chunk) : forall q,
  queue_items (fold_left (enqueue_chunk s path) cs q) = queue_items q ++ flat_map (pending s path) cs.
Proof.
  induction cs as [|c cs IH]; intros q; cbn [fold_left flat_map].
  - now rewrite List.app_nil_r.
  - now rewrite IH, enqueue_chunk_items, List.app_assoc.
Qed.

Lemma enqueue_file_items (s : indexer) (q : queue) (out : list line) (f : source_file) :
  queue_items (fst (enqueue_file s (q, out) f)) = queue_items q ++ file_pending s f.
Proof.
  unfold enqueue_file, file_pending. destruct (file_chunks f) as [cs|]; cbn [fst].
  - apply enqueue_chunks_items.
  - now rewrite List.app_nil_r.
Qed.

Lemma enqueue_files_items (s : indexer) (files : list source_file) : forall q out,
  queue_items (fst (fold_left (enqueue_file s) files (q, out)))
  = queue_items q ++ flat_map (file_pending s) files.
Proof.
  induction files as [|f files IH]; intros q out; cbn [fold_left flat_map].
  - now rewrite List.app_nil_r.
  - pose proof (enqueue_file_items s q out f) as Hf.
    destruct (enqueue_file s (q, out) f) as [q' out']. cbn [fst] in Hf.
    now rewrite IH, Hf, List.app_assoc.
Qed.

Lemma close_queue_items (q : queue) : concat (close_queue q) = queue_items q.
Proof.
  unfold close_queue, queue_items. destruct (current_batch q) eqn:E.
  - now rewrite List.app_nil_r.
  - rewrite concat_app. cbn [concat]. now rewrite List.app_nil_r.
Qed.

(** The batches of a run, laid end to end, are the pending chunks of its
    files in order. *)
Lemma prepare_tasks_items (s : indexer) (files : list source_file) :
  concat (fst (prepare_tasks s files)) = flat_map (file_pending s) files.
Proof.
  unfold prepare_tasks.
  pose proof (enqueue_files_items s files {| tasks := []; current_batch := [] |} []) as H.
  destruct (fold_left _ _ _) as [q out]. cbn [fst] in *.
  now rewrite close_queue_items, H.
Qed.





(** *** What a run stores *)

#[local] Abbreviation result := (string * list float32 * string * string)%type.

Definition path_of (r : result) : string := fst (fst (fst r)).

Definition entry_of (r : result) : Index.entry :=
  {| Index.vector := snd (fst (fst r)); Index.hash := snd (fst r); Index.snippet := snd r |}.

(** The index after the results [rs] have been merged, first to last. *)
Definition store_all (rs : list result) (d : Index.t) : Index.t :=
  fold_left (fun d r => Index.set (path_of r) (entry_of r) d) rs d.

(** The results that the workers return, in the order of completion. *)
Definition merged_results (s : indexer) (files : list source_file) : list result :=
  flat_map (fun b => fst (_embed_batch_worker (dimension s) b))
           (as_completed (fst (prepare_tasks s files))).

Lemma store_result_index (r : result) (s : indexer) :
  index (store_result r s) = Index.set (path_of r) (entry_of r) (index s)
  /\ dimension (store_result r s) = dimension s
  /\ index_file (store_result r s) = index_file s.
Proof. destruct r as [[[p v] h] sn]. repeat split. Qed.

(** The part of the world that a save, a print or a logged call leaves
    alone, and the log of calls grown by [calls]. *)
Record same_store (w w' : world) : Prop := {
  same_index : index (self w') = index (self w);
  same_dimension : dimension (self w') = dimension (self w);
  same_index_file : index_file (self w') = index_file (self w);
  same_calls : api_calls w' = api_calls w
}.

Lemma same_store_refl (w : world) : same_store w w.
Proof. now split. Qed.

Lemma same_store_trans (w1 w2 w3 : world) :
  same_store w1 w2 -> same_store w2 w3 -> same_store w1 w3.
Proof. intros [] []. split; congruence. Qed.

Lemma print_same (l : line) (w : world) : same_store w (print l w).
Proof. now split. Qed.

Lemma prints_same (out : list line) : forall w,
  same_store w (fold_left (fun w l => print l w) out w).
Proof.
  induction out as [|l out IH]; intros w; cbn [fold_left]; [apply same_store_refl |].
  eapply same_store_trans; [apply (print_same l) | apply IH].
Qed.

Lemma save_index_same (w w' : world) : save_index w = Some w' -> same_store w w'.
Proof.
  unfold save_index. destruct (_unsaved_changes (self w) =? 0).
  - intros [= <-]. apply same_store_refl.
  - destruct (Pathlib.with_suffix _ _) as [temp_file|]; [| discriminate].
    unfold next_cut. destruct (cuts w) as [|c cs];
      destruct (save_try _ _ _ _ _) as [d [|]]; intros [= <-]; now split.
Qed.

Lemma merge_results_index (rs : list result) : forall w,
  let w' := fold_left merge_result rs w in
  index (self w') = store_all rs (index (self w))
  /\ dimension (self w') = dimension (self w)
  /\ index_file (self w') = index_file (self w)
  /\ api_calls w' = api_calls w.
Proof.
  induction rs as [|r rs IH]; intros w; cbn [fold_left store_all]; [now repeat split |].
  destruct (IH (merge_result w r)) as (Hi & Hd & Hf & Hc).
  destruct (store_result_index r (self w)) as (Hi' & Hd' & Hf').
  cbn zeta in *. rewrite Hi, Hd, Hf, Hc. unfold merge_result. cbn [print with_self self api_calls].
  now rewrite Hi', Hd', Hf'.
Qed.

(** One completed batch: its results are merged and its call is logged. *)
Lemma merge_batch_index (w w' : world) (batch : list (string * string)) :
  merge_batch (Some w) batch = Some w' ->
  index (self w') = store_all (fst (_embed_batch_worker (dimension (self w)) batch)) (index (self w))
  /\ dimension (self w') = dimension (self w)
  /\ index_file (self w') = index_file (self w)
  /\ api_calls w' = api_calls w ++ [map snd batch].
Proof.
  unfold merge_batch.
  destruct (_embed_batch_worker (dimension (self w)) batch) as [results out]. cbn [fst].
  set (w1 := fold_left (fun w l => print l w) out (log_call (map snd batch) w)).
  assert (H1 : index (self w1) = index (self w) /\ dimension (self w1) = dimension (self w)
               /\ index_file (self w1) = index_file (self w)
               /\ api_calls w1 = api_calls w ++ [map snd batch]).
  { destruct (prints_same out (log_call (map snd batch) w)) as [Hi Hd Hf Hc].
    fold w1 in Hi, Hd, Hf, Hc. now rewrite Hi, Hd, Hf, Hc. }
  destruct H1 as (Hi & Hd & Hf & Hc).
  destruct results as [|r rs]; [intros [= <-]; now repeat split |].
  destruct (merge_results_index (r :: rs) w1) as (Hi' & Hd' & Hf' & Hc').
  cbn zeta in *.
  set (w2 := fold_left merge_result (r :: rs) w1) in *.
  assert (H2 : index (self w2) = store_all (r :: rs) (index (self w))
               /\ dimension (self w2) = dimension (self w)
               /\ index_file (self w2) = index_file (self w)
               /\ api_calls w2 = api_calls w ++ [map snd batch])
    by (rewrite Hi', Hd', Hf', Hc', Hi, Hd, Hf, Hc; now repeat split).
  destruct H2 as (Hi2 & Hd2 & Hf2 & Hc2).
  destruct (SAVE_INTERVAL <=? _).
  - intros Hs. apply save_index_same in Hs as [Hi3 Hd3 Hf3 Hc3].
    now rewrite Hi3, Hd3, Hf3, Hc3.
  - intros [= <-]. now repeat split.
Qed.

Lemma merge_batch_none (batches : list (list (string * string))) :
  fold_left merge_batch batches None = None.
Proof. induction batches as [|b bs IH]; [reflexivity | exact IH]. Qed.

Lemma store_all_app (rs1 rs2 : list result) (d : Index.t) :
  store_all (rs1 ++ rs2) d = store_all rs2 (store_all rs1 d).
Proof. apply fold_left_app. Qed.

Lemma merge_batches_index (batches : list (list (string * string))) : forall w w',
  fold_left merge_batch batches (Some w) = Some w' ->
  index (self w')
  = store_all (flat_map (fun b => fst (_embed_batch_worker (dimension (self w)) b)) batches)
      (index (self w))
  /\ dimension (self w') = dimension (self w)
  /\ index_file (self w') = index_file (self w)
  /\ api_calls w' = api_calls w ++ map (map snd) batches.
Proof.
  induction batches as [|b bs IH]; intros w w'; cbn [fold_left flat_map map].
  - intros [= <-]. rewrite List.app_nil_r. now repeat split.
  - destruct (merge_batch (Some w) b) as [w1|] eqn:E; [| now rewrite merge_batch_none].
    intros H. apply merge_batch_index in E as (Hi & Hd & Hf & Hc).
    apply IH in H as (Hi' & Hd' & Hf' & Hc').
    rewrite Hi', Hd', Hf', Hc', Hi, Hd, Hf, Hc, store_all_app, <- List.app_assoc.
    now repeat split.
Qed.

(** A whole run: the index is the old one with the merged results stored,
    and the log of calls grows by one request for each batch. *)
Lemma run_indexing_index (walked : list source_file) (limit : Z) (w w' : world) :
  run_indexing walked limit w = Some w' ->
  let files := limit_files limit walked in
  index (self w') = store_all (merged_results (self w) files) (index (self w))
  /\ dimension (self w') = dimension (self w)
  /\ index_file (self w') = index_file (self w)
  /\ api_calls w'
     = api_calls w ++ map (map snd) (as_completed (fst (prepare_tasks (self w) files))).
Proof.
  cbv zeta. unfold run_indexing, merged_results.
  set (w0 := if 0 <? limit then print (SayLimiting limit) w else w).
  assert (H0 : same_store w w0)
    by (unfold w0; destruct (0 <? limit); [apply print_same | apply same_store_refl]).
  set (w1 := print say_refrag (print (SayFound (length (limit_files limit walked))) w0)).
  assert (H1 : self w1 = self w) by (unfold w1, w0; destruct (0 <? limit); reflexivity).
  assert (Hc1 : api_calls w1 = api_calls w) by (unfold w1, w0; destruct (0 <? limit); reflexivity).
  rewrite H1.
  destruct (prepare_tasks (self w) (limit_files limit walked)) as [tasks out] eqn:Et. cbn [fst].
  set (w2 := fold_left (fun w l => print l w) out w1).
  assert (H2 : same_store w1 w2) by apply prints_same.
  destruct H2 as [Hi2 Hd2 Hf2 Hc2]. rewrite H1 in Hi2, Hd2, Hf2. rewrite Hc1 in Hc2.
  destruct tasks as [|t ts].
  - intros [= <-]. cbn [print self api_calls].
    rewrite (Permutation_nil (Permutation_sym (as_completed_perm _ []))).
    cbn [flat_map map store_all fold_left]. rewrite List.app_nil_r. now repeat split.
  - destruct (fold_left merge_batch _ _) as [w3|] eqn:E3; [| discriminate].
    destruct (save_index w3) as [w4|] eqn:E4; [| discriminate].
    intros [= <-]. cbn [print self api_calls].
    apply merge_batches_index in E3 as (Hi3 & Hd3 & Hf3 & Hc3).
    apply save_index_same in E4 as [Hi4 Hd4 Hf4 Hc4].
    cbn [print self api_calls] in Hi3, Hd3, Hf3, Hc3.
    rewrite Hi4, Hd4, Hf4, Hc4, Hi3, Hd3, Hf3, Hc3, Hi2, Hd2, Hf2, Hc2.
    now repeat split.
Qed.

Lemma zip3_in {A B C : Type} (a : list A) (b : list B) (c : list C) (x : A) (y : B) (z : C) :
  length a = length c ->
  In (x, y, z) (zip3 a b c) -> In (x, z) (combine a c) /\ In y b.
Proof.
  revert b c. induction a as [|x0 a IH]; intros [|y0 b] [|z0 c]; cbn; try tauto; try discriminate.
  intros [= Hl] [[= -> -> ->] | Hin]; [tauto |].
  destruct (IH _ _ Hl Hin). tauto.
Qed.

Lemma combine_fst_snd {A B : Type} (l : list (A * B)) : combine (map fst l) (map snd l) = l.
Proof. induction l as [|[a b] l IH]; cbn; [reflexivity | now rewrite IH]. Qed.

(** Every result of the worker is made from a pair of its batch: the path
    goes through, the hash is the digest of the text and the snippet its
    first 200 characters. *)
Lemma worker_results (dim : Z) (batch : list (string * string)) (r : result) :
  In r (fst (_embed_batch_worker dim batch)) ->
  exists text,
    In (path_of r, text) batch
    /\ Index.hash (entry_of r) = get_file_hash text
    /\ Index.snippet (entry_of r) = take 200 text.
Proof.
  unfold _embed_batch_worker.
  destruct (embed_content _ _ _) as [e | vs]; cbn [fst]; [intros [] |].
  intros Hin. apply in_map_iff in Hin as ([[p v] t] & <- & Hin).
  apply zip3_in in Hin as [Hin _]; [| now rewrite !length_map].
  rewrite combine_fst_snd in Hin. exists t. now repeat split.
Qed.




(** The entry found under a key after merging: the entry of a merged
    result with that key, or, when no result has the key, the old one. *)
Lemma get_store_all (k : string) (rs : list result) : forall d,
  (exists r, In r rs /\ path_of r = k /\ Index.get k (store_all rs d) = Some (entry_of r))
  \/ ((forall r, In r rs -> path_of r <> k) /\ Index.get k (store_all rs d) = Index.get k d).
Proof.
  induction rs as [|r rs IH]; intros d; cbn [store_all fold_left].
  - right. split; [intros r [] | reflexivity].
  - destruct (IH (Index.set (path_of r) (entry_of r) d)) as [(r' & Hin & Hp & Hg) | [Hno Hg]].
    + left. exists r'. repeat split; auto. now right.
    + fold (store_all rs (Index.set (path_of r) (entry_of r) d)) in Hg.
      rewrite IndexFacts.get_set in Hg.
      destruct (String.eqb k (path_of r)) eqn:E.
      * apply String.eqb_eq in E. left. exists r. repeat split; auto. now left.
      * right. split; [| exact Hg].
        intros r0 [<- | Hin]; [| now apply Hno].
        intros Heq. rewrite Heq, String.eqb_refl in E. discriminate.
Qed.

Lemma take_length (n : nat) (s : string) : (String.length (take n s) <= n)%nat.
Proof.
  unfold take. revert n. induction s as [|c s IH]; intros [|n]; cbn; try lia.
  specialize (IH n). lia.
Qed.

Lemma take_prefix (n : nat) (s : string) : String.prefix (take n s) s = true.
Proof.
  unfold take. revert n. induction s as [|c s IH]; intros [|n]; cbn; try reflexivity.
  destruct (ascii_dec c c); [apply IH | congruence].
Qed.

(** Where a pending pair comes from. *)
Lemma pending_in (s : indexer) (path : string) (c : chunk) (key text : string) :
  In (key, text) (pending s path c) ->
  key = path +:+ snd c /\ text = sanitize_content (fst c) /\ text <> EmptyString
  /\ up_to_date s key (get_file_hash text) = false.
Proof.
  unfold pending. destruct (sanitize_content (fst c)) as [|a t] eqn:E; [intros [] |].
  destruct (up_to_date s _ _) eqn:U; [intros [] |].
  intros [[= <- <-] | []]. repeat split; auto; discriminate.
Qed.

Lemma file_pending_in (s : indexer) (files : list source_file) (key text : string) :
  In (key, text) (flat_map (file_pending s) files) ->
  exists f cs chunk_text chunk_suffix,
    In f files /\ file_chunks f = Some cs /\ In (chunk_text, chunk_suffix) cs
    /\ key = file_path f +:+ chunk_suffix
    /\ text = sanitize_content chunk_text
    /\ text <> EmptyString
    /\ up_to_date s key (get_file_hash text) = false.
Proof.
  intros Hin. apply in_flat_map in Hin as (f & Hf & Hin).
  unfold file_pending in Hin. destruct (file_chunks f) as [cs|] eqn:Ec; [| destruct Hin].
  apply in_flat_map in Hin as ([ct sfx] & Hc & Hin).
  apply pending_in in Hin as (Hk & Ht & Hne & Hu).
  exists f, cs, ct, sfx. repeat split; auto.
Qed.

(** A merged result comes from a pending pair of the files. *)
Lemma merged_results_in (s : indexer) (files : list source_file) (r : result) :
  In r (merged_results s files) ->
  exists text,
    In (path_of r, text) (flat_map (file_pending s) files)
    /\ Index.hash (entry_of r) = get_file_hash text
    /\ Index.snippet (entry_of r) = take 200 text.
Proof.
  unfold merged_results. intros Hin. apply in_flat_map in Hin as (b & Hb & Hin).
  apply (Permutation_in _ (as_completed_perm _ _)) in Hb.
  destruct (worker_results _ _ _ Hin) as (text & Hpair & Hh & Hs).
  exists text. repeat split; auto.
  rewrite <- prepare_tasks_items. apply in_concat. eauto.
Qed.

(** C10.  After a run, the index is the old index with the results of the
    workers stored in it, and every one of those results carries, under
    the key of a chunk of one of the files, the first 200 characters of the
    sanitised text of the chunk as its snippet: at most 200 characters, a
    prefix of the text that was embedded and hashed. *)
Theorem stored_snippet_is_sanitized_prefix (walked : list source_file) (limit : Z) (w w' : world) :
  run_indexing walked limit w = Some w' ->
  let files := limit_files limit walked in
  index (self w') = store_all (merged_results (self w) files) (index (self w))
  /\ Forall (fun r =>
       exists f cs chunk_text chunk_suffix,
         In f files /\ file_chunks f = Some cs /\ In (chunk_text, chunk_suffix) cs
         /\ path_of r = file_path f +:+ chunk_suffix
         /\ Index.snippet (entry_of r) = take 200 (sanitize_content chunk_text)
         /\ Index.hash (entry_of r) = get_file_hash (sanitize_content chunk_text)
         /\ (String.length (Index.snippet (entry_of r)) <= 200)%nat
         /\ String.prefix (Index.snippet (entry_of r)) (sanitize_content chunk_text) = true)
     (merged_results (self w) files)
  /\ (forall key e,
        Index.get key (index (self w')) = Some e ->
        (exists r, In r (merged_results (self w) files) /\ path_of r = key /\ e = entry_of r)
        \/ Index.get key (index (self w)) = Some e).
Proof.
  intros Hrun. cbv zeta.
  destruct (run_indexing_index _ _ _ _ Hrun) as (Hi & _).
  split; [exact Hi |]. split.
  - apply List.Forall_forall. intros r Hr.
    destruct (merged_results_in _ _ _ Hr) as (text & Hin & Hh & Hs).
    destruct (file_pending_in _ _ _ _ Hin) as (f & cs & ct & sfx & Hf & Hc & Hct & Hk & Ht & _).
    exists f, cs, ct, sfx. subst text. rewrite Hs.
    repeat split; auto using take_length, take_prefix.
  - intros key e Hg. rewrite Hi in Hg.
    destruct (get_store_all key (merged_results (self w) (limit_files limit walked)) (index (self w)))
      as [(r & Hin & Hp & Hg') | [_ Hg']]; rewrite Hg' in Hg.
    + left. exists r. repeat split; auto. congruence.
    + now right.
Qed.

(** *** Running again on unchanged files *)

(** The key and clean text of every chunk that is not empty once
    sanitised, whether it is up to date or not. *)
Definition chunk_item (path : string) (c : chunk) : list (string * string) :=
  match sanitize_content (fst c) with
  | EmptyString => []
  | clean_text => [(path +:+ snd c, clean_text)]
  end.

Definition chunk_items (files : list source_file) : list (string * string) :=
  flat_map (fun f => match file_chunks f with
                     | Some cs => flat_map (chunk_item (file_path f)) cs
                     | None => []
                     end) files.









Lemma prints_frame (out : list line) : forall w,
  let w' := fold_left (fun w l => print l w) out w in
  self w' = self w /\ api_calls w' = api_calls w /\ disk w' = disk w.
Proof.
  induction out as [|l out IH]; intros w; cbn [fold_left]; [now repeat split |].
  apply (IH (print l w)).
Qed.





(** *** The caches stay fresh through a run *)

Lemma save_index_fresh (w w' : world) :
  save_index w = Some w' ->
  SearchFacts.cache_fresh (self w) -> SearchFacts.cache_fresh (self w').
Proof.
  unfold save_index. destruct (_unsaved_changes (self w) =? 0).
  - now intros [= <-].
  - destruct (Pathlib.with_suffix _ _) as [temp_file|]; [| discriminate].
    unfold next_cut. destruct (cuts w) as [|c cs];
      destruct (save_try _ _ _ _ _) as [d [|]]; intros [= <-]; auto.
Qed.

Lemma merge_results_fresh (rs : list result) : forall w,
  SearchFacts.cache_fresh (self w) ->
  SearchFacts.cache_fresh (self (fold_left merge_result rs w)).
Proof.
  induction rs as [|r rs IH]; intros w Hc; cbn [fold_left]; [exact Hc |].
  apply IH. unfold merge_result. cbn [print with_self self].
  apply SearchFacts.cache_fresh_store_result.
Qed.

Lemma merge_batch_fresh (w w' : world) (batch : list (string * string)) :
  merge_batch (Some w) batch = Some w' ->
  SearchFacts.cache_fresh (self w) -> SearchFacts.cache_fresh (self w').
Proof.
  unfold merge_batch. intros H Hc.
  destruct (_embed_batch_worker (dimension (self w)) batch) as [results out].
  set (w1 := fold_left (fun w l => print l w) out (log_call (map snd batch) w)) in *.
  assert (H1 : SearchFacts.cache_fresh (self w1)).
  { destruct (prints_frame out (log_call (map snd batch) w)) as (Hs & _). cbv zeta in Hs.
    fold w1 in Hs. now rewrite Hs. }
  destruct results as [|r rs]; [now injection H as <- |].
  pose proof (merge_results_fresh (r :: rs) w1 H1) as H2.
  destruct (SAVE_INTERVAL <=? _); [eapply save_index_fresh; eauto | now injection H as <-].
Qed.

Lemma merge_batches_fresh (batches : list (list (string * string))) : forall w w',
  fold_left merge_batch batches (Some w) = Some w' ->
  SearchFacts.cache_fresh (self w) -> SearchFacts.cache_fresh (self w').
Proof.
  induction batches as [|b bs IH]; intros w w'; cbn [fold_left].
  - now intros [= <-].
  - destruct (merge_batch (Some w) b) as [w1|] eqn:E; [| now rewrite merge_batch_none].
    intros H Hc. eapply IH; [exact H |]. eapply merge_batch_fresh; eauto.
Qed.

(** [run_indexing] keeps the caches fresh. *)
Lemma run_indexing_fresh (walked : list source_file) (limit : Z) (w w' : world) :
  run_indexing walked limit w = Some w' ->
  SearchFacts.cache_fresh (self w) -> SearchFacts.cache_fresh (self w').
Proof.
  unfold run_indexing. intros H Hc.
  set (w0 := if 0 <? limit then print (SayLimiting limit) w else w) in *.
  set (w1 := print say_refrag (print (SayFound (length (limit_files limit walked))) w0)) in *.
  assert (H1 : self w1 = self w) by (unfold w1, w0; destruct (0 <? limit); reflexivity).
  destruct (prepare_tasks (self w1) (limit_files limit walked)) as [tasks out].
  set (w2 := fold_left (fun w l => print l w) out w1) in *.
  assert (H2 : SearchFacts.cache_fresh (self w2)).
  { destruct (prints_frame out w1) as (Hs & _). cbv zeta in Hs. fold w2 in Hs.
    now rewrite Hs, H1. }
  destruct tasks as [|t ts]; [now injection H as <- |].
  destruct (fold_left merge_batch _ _) as [w3|] eqn:E3; [| discriminate].
  destruct (save_index w3) as [w4|] eqn:E4; [| discriminate].
  injection H as <-. cbn [print self].
  eapply save_index_fresh; [exact E4 |].
  eapply merge_batches_fresh; [exact E3 |]. exact H2.
Qed.

End WithServices.
End RunFacts.

Module RunScenario.
Import PyStr Indexer RunFacts Fixture Scenario.

(** Scenario A of the specification: two files with the same text. *)
Definition corpus : list source_file :=
  [ {| file_path := "/c/a.txt"; file_name := "a.txt"; read_text := Some "hello world"%string |};
    {| file_path := "/c/b.txt"; file_name := "b.txt"; read_text := Some "hello world"%string |} ].

(** One file in which two segments stand under the same marker name. *)
Definition twice_named : list source_file :=
  [ {| file_path := "/c/n.txt"; file_name := "n.txt";
       read_text := Some "--- FILE: a ---
foo
--- FILE: a ---
bar"%string |} ].




Lemma stored_snippet_is_sanitized_prefix_witness :
  exists w',
    run_indexing corpus 0 (world_of []) = Some w'
    /\ index (self w')
       = store_all (merged_results (self (world_of [])) (limit_files 0 corpus))
           (index (self (world_of []))).
Proof.
  eexists.
  assert (H1 : run_indexing corpus 0 (world_of []) = Some _) by (vm_compute; reflexivity).
  split; [exact H1 |].
  exact (proj1 (stored_snippet_is_sanitized_prefix corpus 0 (world_of []) _ H1)).
Defined.

(** Why distinct keys matter: both segments of [twice_named] get the key
    of the marker name, the second overwrites the first, and the next run
    on the same file embeds the first again. *)
Lemma shared_key_is_embedded_again :
  exists w1 w2,
    run_indexing twice_named 0 (world_of []) = Some w1
    /\ run_indexing twice_named 0 w1 = Some w2
    /\ api_calls w1 = [["foo"%string; "bar"%string]]
    /\ api_calls w2 = [["foo"%string; "bar"%string]; ["foo"%string]].
Proof.
  eexists _, _. split; [vm_compute; reflexivity |].
  split; [vm_compute; reflexivity |]. split; reflexivity.
Qed.


End RunScenario.

(** * Further properties of the indexer *)

(** ** Chunk suffixes and sanitised text *)

Module ChunkerMore.
Import PyStr PyStrFacts Chunker Indexer.

Lemma app_inv_tail (s1 s2 t : string) : s1 +:+ t = s2 +:+ t -> s1 = s2.
Proof.
  intros H.
  assert (Hlen : String.length s1 = String.length s2).
  { apply (f_equal String.length) in H. rewrite !length_app in H. lia. }
  revert s2 H Hlen. induction s1 as [|c s1 IH]; intros [|c2 s2] H Hlen;
    try reflexivity; try discriminate.
  rewrite !app_cons in H. injection H as -> H. f_equal. apply IH; [exact H |].
  now injection Hlen.
Qed.

Lemma indexed_suffix_inj (base_id : string) (n m : nat) :
  indexed_suffix base_id n = indexed_suffix base_id m -> n = m.
Proof.
  unfold indexed_suffix, str_of_nat. intros H.
  do 3 apply String.app_inj in H. apply app_inv_tail in H.
  now apply pretty_nat_inj.
Qed.

Lemma NoDup_map_inj {A B : Type} (f : A -> B) (l : list A) :
  (forall a b, f a = f b -> a = b) -> List.NoDup l -> List.NoDup (map f l).
Proof.
  intros Hinj. induction 1 as [|x l Hx Hl IH]; cbn [map]; constructor; [| exact IH].
  intros Hin. apply in_map_iff in Hin as (y & Hy & Hin).
  apply Hinj in Hy. now subst y.
Qed.

(** The suffixes of the committed chunks are numbered from 0 up to the
    running index. *)
Lemma fold_suffixes (base_id : string) (limit : Z) (lines : list string) : forall st,
  map snd (chunks st) = map (indexed_suffix base_id) (seq 0 (chunk_idx st)) ->
  let st' := fold_left (splitter_step base_id limit) lines st in
  map snd (chunks st') = map (indexed_suffix base_id) (seq 0 (chunk_idx st')).
Proof.
  induction lines as [|l lines IH]; intros st H; cbn [fold_left]; [exact H |].
  apply IH. unfold splitter_step.
  destruct (current_len st + (len l + 1) >? limit); [| exact H].
  destruct (current_chunk st); [exact H |].
  cbn [commit chunks chunk_idx]. rewrite List.map_app, H, seq_S, List.map_app. reflexivity.
Qed.

(** X1.  The chunks of a segment that fits are the one chunk [::base];
    the chunks of a segment that is split carry [::base[0]], [::base[1]],
    and so on in order, at least one of them.  So no two chunks of a
    segment have the same suffix. *)
Theorem text_splitter_suffixes (text base_id : string) (limit : Z) :
  let suffixes := map snd (_text_splitter text base_id limit) in
  (if len text <=? limit then suffixes = [plain_suffix base_id]
   else exists n, (0 < n)%nat /\ suffixes = map (indexed_suffix base_id) (seq 0 n))
  /\ List.NoDup suffixes.
Proof.
  cbv zeta. unfold _text_splitter. destruct (len text <=? limit).
  - split; [reflexivity |]. repeat constructor. intros [].
  - pose proof (fold_suffixes base_id limit (split_nl text) splitter_init eq_refl) as H.
    cbv zeta in H.
    pose proof (ChunkerFacts.grouped_fold base_id limit (split_nl text) _ _ _
                  ChunkerFacts.grouped_init) as [groups G].
    set (st := fold_left (splitter_step base_id limit) (split_nl text) splitter_init) in *.
    assert (Hn : exists n, (0 < n)%nat
                 /\ map snd (flush base_id st) = map (indexed_suffix base_id) (seq 0 n)).
    { unfold flush. destruct (current_chunk st) as [|c cs] eqn:E.
      - exists (chunk_idx st). split; [| exact H].
        destruct G as [Hc Hne Hl]. rewrite E, List.app_nil_r in Hl. cbn [app] in Hl.
        destruct groups as [|g gs];
          [cbn in Hl; symmetry in Hl; now apply split_nl_nonempty in Hl |].
        apply (f_equal (@length _)) in Hc, H. rewrite !length_map in Hc, H.
        rewrite length_seq in H. cbn [length] in Hc. lia.
      - exists (S (chunk_idx st)). split; [lia |].
        cbn [commit chunks]. rewrite List.map_app, H, seq_S, List.map_app. reflexivity. }
    destruct Hn as (n & Hpos & Hs). split; [eauto |].
    rewrite Hs. apply NoDup_map_inj; [| apply seq_NoDup].
    intros a b. apply indexed_suffix_inj.
Qed.

(** *** The normal form of sanitised text *)

(** No white space but single blanks; [prev] tells that a blank comes just
    before. *)
Fixpoint spaced (prev : bool) (s : string) : Prop :=
  match s with
  | EmptyString => True
  | String c s' =>
      if isspace c then c = " "%char /\ prev = false /\ spaced true s'
      else spaced false s'
  end.

Lemma spaced_weaken (s : string) : spaced true s -> spaced false s.
Proof.
  destruct s as [|c s]; cbn; [tauto |]. destruct (isspace c); [| tauto].
  intros (_ & H & _). discriminate.
Qed.

Lemma sub_spaces_spaced (s : string) : forall b, spaced b (Re.sub_spaces_from b s).
Proof.
  induction s as [|c s IH]; intros b; cbn [Re.sub_spaces_from]; [exact I |].
  destruct (isspace c) eqn:E.
  - destruct b; [apply IH |]. cbn [spaced].
    replace (isspace " "%char) with true by reflexivity. auto.
  - cbn [spaced]. rewrite E. apply IH.
Qed.

Lemma lstrip_spaced (s : string) : forall b, spaced b s -> spaced false (lstrip s).
Proof.
  induction s as [|c s IH]; intros b H; cbn [lstrip]; [exact I |].
  cbn [spaced] in H. destruct (isspace c) eqn:E.
  - destruct H as (_ & _ & H). eapply IH, H.
  - cbn [spaced]. now rewrite E.
Qed.

Lemma rstrip_spaced (s : string) : forall b, spaced b s -> spaced b (rstrip s).
Proof.
  induction s as [|c s IH]; intros b H; cbn [rstrip]; [exact I |].
  cbn [spaced] in H. destruct (isspace c) eqn:E.
  - destruct H as (Hc & Hb & H). specialize (IH _ H).
    destruct (rstrip s) eqn:Er; [exact I |]. cbn [spaced]. rewrite E. auto.
  - specialize (IH _ H).
    destruct (rstrip s) eqn:Er; cbn [spaced]; rewrite E; [exact I | exact IH].
Qed.

(** Collapsing white space changes nothing in spaced text. *)
Lemma spaced_fixed (s : string) : forall b, spaced b s -> Re.sub_spaces_from b s = s.
Proof.
  induction s as [|c s IH]; intros b H; cbn [Re.sub_spaces_from]; [reflexivity |].
  cbn [spaced] in H. destruct (isspace c) eqn:E.
  - destruct H as (-> & -> & H). now rewrite (IH _ H).
  - now rewrite (IH _ H).
Qed.

Lemma spaced_single_line (s : string) : forall b, spaced b s -> single_line s.
Proof.
  unfold single_line. induction s as [|c s IH]; intros b H; [reflexivity |].
  cbn [spaced] in H. cbn [split_nl].
  destruct (Ascii.eqb c newline) eqn:N.
  - apply Ascii.eqb_eq in N. subst c. cbn in H. destruct H as (H & _). discriminate.
  - destruct (isspace c); [destruct H as (_ & _ & H) |]; now rewrite (IH _ H).
Qed.

(** Text that starts with no white space. *)
Definition starts_clean (s : string) : Prop :=
  match s with
  | EmptyString => True
  | String c _ => isspace c = false
  end.

Lemma lstrip_starts_clean (s : string) : starts_clean (lstrip s).
Proof.
  induction s as [|c s IH]; cbn [lstrip]; [exact I |].
  destruct (isspace c) eqn:E; [exact IH | exact E].
Qed.

Lemma starts_clean_lstrip (s : string) : starts_clean s -> lstrip s = s.
Proof. destruct s as [|c s]; cbn; [reflexivity | now intros ->]. Qed.

Lemma rstrip_starts_clean (s : string) : starts_clean s -> starts_clean (rstrip s).
Proof.
  destruct s as [|c s]; cbn [rstrip starts_clean]; [auto |].
  intros E. destruct (rstrip s); [rewrite E |]; exact E.
Qed.

Lemma rstrip_idem (s : string) : rstrip (rstrip s) = rstrip s.
Proof.
  induction s as [|c s IH]; [reflexivity |]. cbn [rstrip].
  destruct (rstrip s) as [|c' r] eqn:Er.
  - destruct (isspace c) eqn:E; [reflexivity |]. cbn [rstrip]. now rewrite E.
  - cbn [rstrip]. cbn [rstrip] in IH. rewrite IH. now destruct (rstrip r); destruct (isspace c').
Qed.

Lemma strip_idem (s : string) : strip (strip s) = strip s.
Proof.
  unfold strip.
  rewrite (starts_clean_lstrip (rstrip (lstrip s)))
    by apply rstrip_starts_clean, lstrip_starts_clean.
  apply rstrip_idem.
Qed.

Lemma sanitize_content_spaced (text : string) : spaced false (sanitize_content text).
Proof.
  unfold sanitize_content, strip.
  apply rstrip_spaced. eapply lstrip_spaced. apply sub_spaces_spaced.
Qed.

Lemma sanitize_content_single_line (text : string) : single_line (sanitize_content text).
Proof. eapply spaced_single_line, sanitize_content_spaced. Qed.

(** X2.  Sanitised text is one line whose only white space is single
    blanks between other characters: the two white-space steps of
    [sanitize_content], the collapsing and the strip, change nothing when
    applied to it again.  Nothing is said of the image step, which can
    still find an image in it. *)
Theorem sanitized_text_is_one_spaced_line (text : string) :
  let clean := sanitize_content text in
  single_line clean
  /\ spaced false clean
  /\ Re.sub_spaces clean = clean
  /\ strip clean = clean.
Proof.
  cbv zeta. pose proof (sanitize_content_spaced text) as H.
  repeat split.
  - eapply spaced_single_line, H.
  - exact H.
  - apply spaced_fixed, H.
  - unfold sanitize_content. apply strip_idem.
Qed.

(** Sanitising is not idempotent: an image whose text runs over two lines
    is kept by the first pass, for the dot of the pattern stops at the
    newline, and the collapsing of white space then joins the lines, so
    that a second pass removes it. *)
Lemma sanitize_content_twice :
  sanitize_content "![a
b](c)" = "![a b](c)"%string
  /\ sanitize_content (sanitize_content "![a
b](c)") = EmptyString.
Proof. split; reflexivity. Qed.

End ChunkerMore.

(** ** Saving and loading *)

Module LoadFacts.
Import Indexer Loading.

Section WithServices.
Context `{np : Numpy} {pk : Pickle Index.t} {up : Unpickle}.

(** How pickle holds an entry that the indexer stored: its vector is an
    array. *)
Definition stored_of_entry (e : Index.entry) : stored_entry :=
  {| stored_vector_of := AsArray (Index.vector e);
     stored_hash := Index.hash e; stored_snippet := Index.snippet e |}.

Definition stored_of_index (ix : Index.t) : list (string * stored_entry) :=
  map (fun ke => (fst ke, stored_of_entry (snd ke))) ix.

Lemma entries_of_stored (ix : Index.t) :
  map (fun ke => (fst ke, entry_of_stored (snd ke))) (stored_of_index ix) = ix.
Proof.
  unfold stored_of_index.
  induction ix as [|[k [v h sn]] ix IH]; cbn [map fst snd]; [reflexivity |].
  now rewrite IH.
Qed.

Lemma stored_not_legacy (ix : Index.t) : is_legacy (stored_of_index ix) = false.
Proof. destruct ix as [|[k e] ix]; reflexivity. Qed.

(** The index a new indexer starts with depends on the snapshot file
    alone. *)
Definition loaded_index (data : option (list Byte.byte)) : Index.t :=
  match data with
  | Some bytes =>
      match pickle_loads bytes with
      | Some loaded =>
          map (fun ke => (fst ke, entry_of_stored (snd ke)))
              (if is_legacy loaded then map (fun ke => (fst ke, to_numpy (snd ke))) loaded
               else loaded)
      | None => []
      end
  | None => []
  end.

Lemma init_index (resolved_index_file : string) (dim : Z) (w : world) :
  index (self (fst (__init__ resolved_index_file dim w)))
  = loaded_index (disk w !! resolved_index_file).
Proof.
  unfold __init__, load_index, loaded_index. cbn [with_self self disk index_file].
  destruct (disk w !! resolved_index_file) as [data|]; [| reflexivity].
  destruct (pickle_loads data); reflexivity.
Qed.

(** A save that really runs: it takes the next cut, leaves the disk as
    the [try] block left it, and clears the counter only when the block
    reached its end. *)
Lemma save_index_effect (w : world) (temp_file : string) :
  _unsaved_changes (self w) <> 0 ->
  Pathlib.with_suffix (index_file (self w)) ".tmp" = Some temp_file ->
  let c := hd Fs.NoCut (cuts w) in
  let r := save_try c temp_file (index_file (self w)) (pickle_dumps (index (self w))) (disk w) in
  exists w',
    save_index w = Some w'
    /\ disk w' = fst r
    /\ self w' = (if snd r then clear_unsaved (self w) else self w)
    /\ cuts w' = tl (cuts w)
    /\ api_calls w' = api_calls w
    /\ console w' = console w
                    ++ [if snd r then SayCheckpointSaved (length (index (self w))) else SaySaveFailed].
Proof.
  intros Hu Ht. cbv zeta. unfold save_index.
  destruct (_unsaved_changes (self w) =? 0) eqn:E; [apply Z.eqb_eq in E; contradiction |].
  rewrite Ht. unfold next_cut.
  destruct (cuts w) as [|c cs] eqn:Ec; cbn [hd tl self disk];
    destruct (save_try _ _ _ _ _) as [d [|]]; eexists; (split; [reflexivity |]);
    cbn; rewrite ?Ec; repeat split; reflexivity.
Qed.

(** X6.  Save, then load: after a save that meets no cut, a new indexer
    on the same snapshot file starts with exactly the index that was
    saved, provided pickle reads back what it wrote for that index. *)
Theorem save_then_load (w : world) (temp_file : string) (dim : Z) :
  _unsaved_changes (self w) <> 0 ->
  cuts w = [] ->
  Pathlib.with_suffix (index_file (self w)) ".tmp" = Some temp_file ->
  temp_file <> index_file (self w) ->
  pickle_loads (pickle_dumps (index (self w))) = Some (stored_of_index (index (self w))) ->
  exists w',
    save_index w = Some w'
    /\ _unsaved_changes (self w') = 0
    /\ disk w' !! index_file (self w) = Some (pickle_dumps (index (self w)))
    /\ index (self (fst (__init__ (index_file (self w)) dim w'))) = index (self w).
Proof.
  intros Hu Hc Ht Hne Hrt.
  destruct (save_index_effect w temp_file Hu Ht) as (w' & Hs & Hd & Hself & _).
  cbv zeta in Hd, Hself. rewrite Hc in Hd, Hself. cbn [hd] in Hd, Hself.
  rewrite (SaveFacts.save_try_finished _ _ _ _ _ Hne) in Hself.
  pose proof (SaveFacts.save_try_snapshot Fs.NoCut _ _ (pickle_dumps (index (self w))) (disk w) Hne)
    as Hsnap.
  rewrite <- Hd in Hsnap. cbn in Hsnap.
  exists w'. split; [exact Hs |]. split; [now rewrite Hself |]. split; [exact Hsnap |].
  rewrite init_index, Hsnap. unfold loaded_index.
  rewrite Hrt, stored_not_legacy. apply entries_of_stored.
Qed.

(** X7.  A save that stops before the unlink, at the open, inside the
    write or right after it, fails without harm when its temporary file
    is another file than the snapshot: the old snapshot file is as it
    was, a new indexer loads from it what it would have loaded before,
    and the indexer keeps its index and its count of unsaved changes for
    the next save. *)
Theorem early_cut_keeps_snapshot (w : world) (temp_file : string) (c : Fs.cut)
    (rest : list Fs.cut) (dim : Z) :
  _unsaved_changes (self w) <> 0 ->
  cuts w = c :: rest ->
  c <> Fs.NoCut -> c <> Fs.CutAfterUnlink ->
  Pathlib.with_suffix (index_file (self w)) ".tmp" = Some temp_file ->
  temp_file <> index_file (self w) ->
  exists w',
    save_index w = Some w'
    /\ disk w' !! index_file (self w) = disk w !! index_file (self w)
    /\ self w' = self w
    /\ index (self (fst (__init__ (index_file (self w)) dim w')))
       = index (self (fst (__init__ (index_file (self w)) dim w))).
Proof.
  intros Hu Hc Hn1 Hn2 Ht Hne.
  destruct (save_index_effect w temp_file Hu Ht) as (w' & Hs & Hd & Hself & _).
  cbv zeta in Hd, Hself. rewrite Hc in Hd, Hself. cbn [hd] in Hd, Hself.
  rewrite (SaveFacts.save_try_finished _ _ _ _ _ Hne) in Hself.
  pose proof (SaveFacts.save_try_snapshot c _ _ (pickle_dumps (index (self w))) (disk w) Hne)
    as Hsnap.
  rewrite <- Hd in Hsnap.
  assert (Hsame : disk w' !! index_file (self w) = disk w !! index_file (self w))
    by (destruct c; try contradiction; exact Hsnap).
  assert (Hself' : self w' = self w) by (destruct c; try contradiction; exact Hself).
  exists w'. repeat split; auto.
  now rewrite !init_index, Hsame.
Qed.

(** The second of two saves, when the first one failed and left [self]
    as it was. *)
Ltac second_save w w1 temp_file :=
  match goal with
  | Hu : _unsaved_changes (self w) <> 0,
    Ht : Pathlib.with_suffix (index_file (self w)) ".tmp" = Some temp_file,
    Hne : temp_file <> index_file (self w),
    Hself1 : self w1 = self w,
    Hc1 : cuts w1 = [],
    Hs1 : save_index w = Some w1 |- _ =>
      let w2 := fresh "w2" in
      let Hs2 := fresh "Hs2" in
      let Hd2 := fresh "Hd2" in
      let Hself2 := fresh "Hself2" in
      let Hsnap2 := fresh "Hsnap2" in
      rewrite <- Hself1 in Hu, Ht, Hne;
      destruct (save_index_effect w1 temp_file Hu Ht) as (w2 & Hs2 & Hd2 & Hself2 & _);
      cbv zeta in Hd2, Hself2; rewrite Hc1 in Hd2, Hself2; cbn [hd] in Hd2, Hself2;
      rewrite (SaveFacts.save_try_finished _ _ _ _ _ Hne) in Hself2;
      pose proof (SaveFacts.save_try_snapshot Fs.NoCut _ _
                    (pickle_dumps (index (self w1))) (disk w1) Hne) as Hsnap2;
      rewrite <- Hd2 in Hsnap2; cbn in Hsnap2;
      exists w2; rewrite Hself2; rewrite Hself1 in *;
      repeat split; auto
  end.

(** X8.  Whatever cut a save meets and survives, the next save makes up
    for it when the temporary file is another file than the snapshot: it
    runs to its end, the snapshot file then holds the pickled index, no
    change is left unsaved and the index itself was never touched. *)
Theorem next_save_recovers (w : world) (temp_file : string) (c : Fs.cut) :
  _unsaved_changes (self w) <> 0 ->
  cuts w = [c] ->
  Pathlib.with_suffix (index_file (self w)) ".tmp" = Some temp_file ->
  temp_file <> index_file (self w) ->
  exists w1 w2,
    save_index w = Some w1
    /\ save_index w1 = Some w2
    /\ disk w2 !! index_file (self w) = Some (pickle_dumps (index (self w)))
    /\ _unsaved_changes (self w2) = 0
    /\ index (self w2) = index (self w).
Proof.
  intros Hu Hc Ht Hne.
  destruct (save_index_effect w temp_file Hu Ht) as (w1 & Hs1 & Hd1 & Hself1 & Hc1 & _).
  cbv zeta in Hd1, Hself1. rewrite Hc in Hd1, Hself1, Hc1. cbn [hd tl] in Hd1, Hself1, Hc1.
  rewrite (SaveFacts.save_try_finished _ _ _ _ _ Hne) in Hself1.
  pose proof (SaveFacts.save_try_snapshot c _ _ (pickle_dumps (index (self w))) (disk w) Hne)
    as Hsnap1.
  rewrite <- Hd1 in Hsnap1.
  exists w1. destruct c.
  - (* the first save was complete: the second has nothing to do *)
    exists w1. split; [exact Hs1 |]. rewrite Hself1. repeat split; auto.
    unfold save_index. now rewrite Hself1.
  - second_save w w1 temp_file.
  - second_save w w1 temp_file.
  - second_save w w1 temp_file.
  - second_save w w1 temp_file.
Qed.

(** X9.  A snapshot file whose own suffix is [.tmp] is its own temporary
    file: [with_suffix] returns the same path.  A save then writes the new
    data over the snapshot, unlinks it, and fails at the rename, so that
    even without any fault the disk is left with no snapshot at all, and
    the changes stay unsaved. *)
Theorem tmp_named_snapshot_is_lost (w : world) :
  _unsaved_changes (self w) <> 0 ->
  cuts w = [] ->
  Pathlib.with_suffix (index_file (self w)) ".tmp" = Some (index_file (self w)) ->
  exists w',
    save_index w = Some w'
    /\ disk w' !! index_file (self w) = None
    /\ self w' = self w
    /\ console w' = console w ++ [SaySaveFailed].
Proof.
  intros Hu Hc Ht.
  destruct (save_index_effect w _ Hu Ht) as (w' & Hs & Hd & Hself & _ & _ & Hout).
  cbv zeta in Hd, Hself, Hout. rewrite Hc in Hd, Hself, Hout. cbn [hd] in Hd, Hself, Hout.
  assert (Hr : save_try Fs.NoCut (index_file (self w)) (index_file (self w))
                 (pickle_dumps (index (self w))) (disk w)
               = (delete (index_file (self w))
                    (<[index_file (self w) := pickle_dumps (index (self w))]> (disk w)), false)).
  { unfold save_try, Fs.write_file, Fs.exists_, Fs.unlink, Fs.rename. by simplify_map_eq. }
  rewrite Hr in Hd, Hself, Hout. cbn [fst snd] in Hd, Hself, Hout.
  exists w'. repeat split; auto. rewrite Hd. by simplify_map_eq.
Qed.

End WithServices.
End LoadFacts.

(** ** Batches, failures and checkpoints of a run *)

Module RunMore.
Import PyStr Chunker Indexer RunFacts.

Section WithServices.
Context `{np : Numpy} {hl : Hashlib} {ec : EmbeddingClient} {rf : Refrag} {tp : ThreadPool}.
Context {pk : Pickle Index.t}.

#[local] Abbreviation batch := (list (string * string)).

(** *** The size of the batches *)

(** Closed batches are full, the open one is not. *)
Definition well_batched (q : queue) : Prop :=
  Forall (fun b : batch => Z.of_nat (length b) = BATCH_SIZE) (tasks q)
  /\ Z.of_nat (length (current_batch q)) < BATCH_SIZE.

Lemma enqueue_chunk_batched (s : indexer) (path : string) (q : queue) (c : chunk) :
  well_batched q -> well_batched (enqueue_chunk s path q c).
Proof.
  intros [Hf Hc]. destruct c as [chunk_text chunk_suffix]. unfold enqueue_chunk.
  destruct (sanitize_content chunk_text); [now split |].
  destruct (up_to_date s _ _); [now split |].
  destruct (BATCH_SIZE <=? _) eqn:E; split; cbn [tasks current_batch].
  - apply Forall_app; split; [exact Hf |]. constructor; [| constructor].
    apply Z.leb_le in E. rewrite length_app in *. cbn [length] in *. lia.
  - unfold BATCH_SIZE. cbn. lia.
  - exact Hf.
  - apply Z.leb_gt in E. exact E.
Qed.

Lemma enqueue_files_batched (s : indexer) (files : list source_file) : forall q out,
  well_batched q -> well_batched (fst (fold_left (enqueue_file s) files (q, out))).
Proof.
  induction files as [|f files IH]; intros q out Hq; [exact Hq |].
  cbn [fold_left]. unfold enqueue_file at 2.
  destruct (file_chunks f) as [cs|]; apply IH; [| exact Hq].
  clear -Hq. revert q Hq. induction cs as [|c cs IHc]; intros q Hq; [exact Hq |].
  cbn [fold_left]. now apply IHc, enqueue_chunk_batched.
Qed.

Lemma length_concat_full (bs : list batch) :
  Forall (fun b : batch => Z.of_nat (length b) = BATCH_SIZE) bs ->
  Z.of_nat (length (concat bs)) = BATCH_SIZE * Z.of_nat (length bs).
Proof.
  induction 1 as [|b bs Hb _ IH]; [reflexivity |].
  cbn [concat length]. rewrite length_app. lia.
Qed.

(** X10.  The queue is cut into batches of [BATCH_SIZE]: every batch
    holds between one and five pairs, every batch but the last exactly
    five, and the number of batches, which is the number of embedding
    calls of the run, is the number of pending chunks divided by five and
    rounded up. *)
Theorem batches_are_full (s : indexer) (files : list source_file) :
  let batches := fst (prepare_tasks s files) in
  Forall (fun b : batch => 1 <= Z.of_nat (length b) <= BATCH_SIZE) batches
  /\ Forall (fun b : batch => Z.of_nat (length b) = BATCH_SIZE) (removelast batches)
  /\ Z.of_nat (length batches)
     = (Z.of_nat (length (flat_map (file_pending s) files)) + BATCH_SIZE - 1) / BATCH_SIZE.
Proof.
  cbv zeta. rewrite <- prepare_tasks_items. unfold prepare_tasks.
  pose proof (enqueue_files_batched s files {| tasks := []; current_batch := [] |} []) as H.
  destruct (fold_left _ _ _) as [q out]. cbn [fst] in *.
  destruct H as [Hf Hc]; [split; [constructor | cbn; unfold BATCH_SIZE; lia] |].
  pose proof (length_concat_full _ Hf) as Hn.
  assert (Hall : Forall (fun b : batch => 1 <= Z.of_nat (length b) <= BATCH_SIZE) (tasks q)).
  { eapply List.Forall_impl; [| exact Hf]. cbv beta. unfold BATCH_SIZE. intros; lia. }
  unfold close_queue. destruct (current_batch q) as [|p cur] eqn:E.
  - split; [exact Hall |]. split.
    + clear -Hf. induction Hf as [|b bs Hb Hbs IH]; [constructor |].
      destruct bs; [constructor |]. cbn [removelast] in *. now constructor.
    + rewrite Hn. unfold BATCH_SIZE.
      replace (5 * Z.of_nat (length (tasks q)) + 5 - 1)
        with (4 + Z.of_nat (length (tasks q)) * 5) by lia.
      rewrite Z.div_add by lia. reflexivity.
  - split; [| split].
    + apply Forall_app; split; [exact Hall |]. constructor; [| constructor].
      cbn [length] in *. lia.
    + now rewrite removelast_last.
    + rewrite concat_app, !length_app. cbn [concat]. rewrite List.app_nil_r.
      rewrite !Nat2Z.inj_add, Hn. unfold BATCH_SIZE in *.
      set (k := Z.of_nat (length (p :: cur))) in *.
      assert (0 < k) by (unfold k; cbn [length]; lia).
      replace (5 * Z.of_nat (length (tasks q)) + k + 5 - 1)
        with (k + 4 + Z.of_nat (length (tasks q)) * 5) by lia.
      rewrite Z.div_add by lia.
      replace ((k + 4) / 5) with 1; [cbn [length]; lia |].
      apply Z.div_unique with (r := k - 1); lia.
Qed.

(** X11.  On an empty store nothing is up to date: the batches of the
    run, laid end to end, are the keys and clean texts of all the chunks
    that do not sanitise to the empty string, file by file and chunk by
    chunk, each once. *)
Theorem empty_store_queues_every_chunk (s : indexer) (files : list source_file) :
  index s = [] ->
  concat (fst (prepare_tasks s files)) = chunk_items files.
Proof.
  intros He. rewrite prepare_tasks_items. unfold chunk_items.
  induction files as [|f files IH]; [reflexivity |].
  cbn [flat_map]. rewrite IH. f_equal.
  unfold file_pending. destruct (file_chunks f) as [cs|]; [| reflexivity].
  induction cs as [|c cs IHc]; [reflexivity |].
  cbn [flat_map]. rewrite IHc. f_equal.
  unfold pending, chunk_item, up_to_date. rewrite He.
  now destruct (sanitize_content (fst c)).
Qed.

(** *** The worker pairs by position *)

Lemma zip3_paths {A B C : Type} (a : list A) (b : list B) (c : list C) :
  length a = length c ->
  map (fun t => fst (fst t)) (zip3 a b c) = firstn (length b) a
  /\ map (fun t => snd (fst t)) (zip3 a b c) = firstn (length a) b.
Proof.
  revert b c. induction a as [|x a IH]; intros b c Hl.
  - cbn [zip3 map length firstn]. split; [now destruct b | reflexivity].
  - destruct c as [|z c]; [discriminate |]. injection Hl as Hl.
    destruct b as [|y b]; [split; reflexivity |].
    destruct (IH b c Hl) as [H1 H2].
    cbn [zip3 map length firstn fst snd]. now rewrite H1, H2.
Qed.

(** X12.  The worker pairs texts and vectors by position and stops with
    the shorter list: when the service returns fewer vectors than texts,
    the first texts get them and the others are left out without any
    error; vectors beyond the number of texts are dropped. *)
Theorem worker_pairs_by_position (dim : Z) (batch_data : batch) (vs : list (list float32)) :
  embed_content DEFAULT_MODEL (map snd batch_data) dim = EmbedReturns vs ->
  let results := fst (_embed_batch_worker dim batch_data) in
  map path_of results = firstn (length vs) (map fst batch_data)
  /\ map (fun r => Index.vector (entry_of r)) results = firstn (length batch_data) vs
  /\ snd (_embed_batch_worker dim batch_data) = [].
Proof.
  intros He. cbv zeta. unfold _embed_batch_worker. rewrite He. cbn [fst snd].
  destruct (zip3_paths (map fst batch_data) vs (map snd batch_data)) as [H1 H2];
    [now rewrite !length_map |].
  rewrite length_map in H2. rewrite <- H1, <- H2, !List.map_map.
  repeat split; apply map_ext; now intros [[p v] t].
Qed.

(** *** A service that is down *)

Lemma enqueue_chunk_ext (s s' : indexer) (path : string) (q : queue) (c : chunk) :
  index s = index s' -> dimension s = dimension s' ->
  enqueue_chunk s path q c = enqueue_chunk s' path q c.
Proof.
  intros Hi Hd. destruct c as [chunk_text chunk_suffix]. unfold enqueue_chunk, up_to_date.
  now rewrite Hi, Hd.
Qed.

Lemma prepare_tasks_ext (s s' : indexer) (files : list source_file) :
  index s = index s' -> dimension s = dimension s' ->
  prepare_tasks s files = prepare_tasks s' files.
Proof.
  intros Hi Hd. unfold prepare_tasks.
  assert (H : forall fs st, fold_left (enqueue_file s) fs st = fold_left (enqueue_file s') fs st).
  { induction fs as [|f fs IH]; intros st; [reflexivity |]. cbn [fold_left]. rewrite IH. f_equal.
    destruct st as [q out]. unfold enqueue_file. destruct (file_chunks f) as [cs|]; [| reflexivity].
    f_equal. revert q. induction cs as [|c cs IHc]; intros q; [reflexivity |].
    cbn [fold_left]. now rewrite IHc, (enqueue_chunk_ext s s'). }
  now rewrite H.
Qed.

(** X14.  While the service is down, a run changes nothing in the store:
    every batch is still sent, each call fails on its own, the index is
    left as it was, and the same batches are pending for the next run. *)
Theorem failed_batches_stay_pending (walked : list source_file) (limit : Z) (w w' : world) :
  (forall contents, exists message,
      embed_content DEFAULT_MODEL contents (dimension (self w)) = EmbedRaises message) ->
  run_indexing walked limit w = Some w' ->
  let files := limit_files limit walked in
  index (self w') = index (self w)
  /\ length (api_calls w')
     = (length (api_calls w) + length (fst (prepare_tasks (self w) files)))%nat
  /\ prepare_tasks (self w') files = prepare_tasks (self w) files.
Proof.
  intros Hdown Hrun. cbv zeta.
  destruct (run_indexing_index _ _ _ _ Hrun) as (Hi & Hd & _ & Hc). cbv zeta in Hi, Hc.
  assert (Hm : merged_results (self w) (limit_files limit walked) = []).
  { unfold merged_results. generalize (as_completed (fst (prepare_tasks (self w)
                                         (limit_files limit walked)))) as bs.
    induction bs as [|b bs IH]; [reflexivity |].
    cbn [flat_map]. rewrite IH, List.app_nil_r. unfold _embed_batch_worker.
    destruct (Hdown (map snd b)) as [m ->]. reflexivity. }
  rewrite Hm in Hi. cbn [store_all fold_left] in Hi.
  split; [exact Hi |]. split.
  - rewrite Hc, length_app, length_map.
    now rewrite (Permutation_length (as_completed_perm _ _)).
  - now apply prepare_tasks_ext.
Qed.

(** *** Checkpoints *)

(** A world in which saves work: no cut ahead, a temporary file apart
    from the snapshot file, a counter that is not negative. *)
Record steady (temp_file : string) (w : world) : Prop := {
  steady_cuts : cuts w = [];
  steady_temp : Pathlib.with_suffix (index_file (self w)) ".tmp" = Some temp_file;
  steady_apart : temp_file <> index_file (self w);
  steady_count : 0 <= _unsaved_changes (self w)
}.

(** Nothing is lost: changes are counted as unsaved, or the snapshot file
    holds the pickled index. *)
Definition synced (w : world) : Prop :=
  _unsaved_changes (self w) <> 0
  \/ disk w !! index_file (self w) = Some (pickle_dumps (index (self w))).

Lemma prints_cuts (out : list line) : forall w,
  cuts (fold_left (fun w l => print l w) out w) = cuts w.
Proof. induction out as [|l out IH]; intros w; cbn [fold_left]; [reflexivity | now rewrite IH]. Qed.

Lemma merge_results_count (rs : list (string * list float32 * string * string)) : forall w,
  let w' := fold_left merge_result rs w in
  _unsaved_changes (self w') = _unsaved_changes (self w) + Z.of_nat (length rs)
  /\ disk w' = disk w /\ cuts w' = cuts w.
Proof.
  induction rs as [|r rs IH]; intros w; cbn [fold_left length]; [repeat split; lia |].
  destruct (IH (merge_result w r)) as (Hu & Hd & Hc). cbv zeta in *.
  rewrite Hu, Hd, Hc. destruct r as [[[p v] h] sn].
  cbn [merge_result print with_self self disk cuts store_result _unsaved_changes].
  repeat split; lia.
Qed.

(** A save in a steady world runs to its end. *)
Lemma save_index_steady (temp_file : string) (w : world) :
  steady temp_file w ->
  exists w',
    save_index w = Some w'
    /\ steady temp_file w'
    /\ _unsaved_changes (self w') = 0
    /\ index (self w') = index (self w)
    /\ (synced w -> disk w' !! index_file (self w') = Some (pickle_dumps (index (self w')))).
Proof.
  intros [Hc Ht Hne Hu].
  destruct (Z.eq_dec (_unsaved_changes (self w)) 0) as [E | E].
  - exists w. unfold save_index. rewrite E. cbn.
    repeat split; auto. intros [H | H]; [contradiction | exact H].
  - destruct (LoadFacts.save_index_effect w temp_file E Ht) as (w' & Hs & Hd & Hself & Hc' & _).
    cbv zeta in Hd, Hself. rewrite Hc in Hd, Hself, Hc'. cbn [hd tl] in Hd, Hself, Hc'.
    rewrite (SaveFacts.save_try_finished _ _ _ _ _ Hne) in Hself.
    pose proof (SaveFacts.save_try_snapshot Fs.NoCut _ _
                  (pickle_dumps (index (self w))) (disk w) Hne) as Hsnap.
    rewrite <- Hd in Hsnap. cbn in Hsnap.
    exists w'. split; [exact Hs |].
    split; [split; rewrite ?Hself; cbn [clear_unsaved index_file _unsaved_changes]; auto; lia |].
    rewrite Hself. cbn [clear_unsaved index index_file _unsaved_changes]. auto.
Qed.

Lemma merge_batch_steady (temp_file : string) (w w' : world) (b : batch) :
  steady temp_file w ->
  merge_batch (Some w) b = Some w' ->
  steady temp_file w'
  /\ (_unsaved_changes (self w) < SAVE_INTERVAL -> _unsaved_changes (self w') < SAVE_INTERVAL)
  /\ (synced w \/ fst (_embed_batch_worker (dimension (self w)) b) <> [] -> synced w').
Proof.
  intros [Hc Ht Hne Hu]. unfold merge_batch.
  destruct (_embed_batch_worker (dimension (self w)) b) as [results out]. cbn [fst].
  set (w1 := fold_left (fun w l => print l w) out (log_call (map snd b) w)).
  destruct (prints_frame out (log_call (map snd b) w)) as (Hs1 & _ & Hd1). cbv zeta in Hs1, Hd1.
  pose proof (prints_cuts out (log_call (map snd b) w)) as Hc1.
  fold w1 in Hs1, Hd1, Hc1. cbn [log_call self disk cuts] in Hs1, Hd1, Hc1.
  destruct results as [|r rs].
  - intros [= <-]. unfold synced. rewrite Hs1, Hd1. split; [split; congruence |].
    split; [auto |]. intros [H | H]; [exact H | congruence].
  - destruct (merge_results_count (r :: rs) w1) as (Hu2 & Hd2 & Hc2).
    destruct (merge_results_index (r :: rs) w1) as (_ & _ & Hf2 & _).
    cbv zeta in Hu2, Hd2, Hc2, Hf2.
    set (w2 := fold_left merge_result (r :: rs) w1) in *.
    rewrite Hs1 in Hu2, Hf2. cbn [length] in Hu2.
    assert (S2 : steady temp_file w2) by (split; [congruence | now rewrite Hf2 .. | lia]).
    destruct (SAVE_INTERVAL <=? _unsaved_changes (self w2)) eqn:E.
    + intros Hs. destruct (save_index_steady temp_file w2 S2) as (w3 & Hs3 & S3 & Hu3 & _ & Hsync).
      rewrite Hs in Hs3. injection Hs3 as ->.
      split; [exact S3 |]. split; [unfold SAVE_INTERVAL; lia |].
      intros _. right. apply Hsync. left. lia.
    + intros [= <-]. apply Z.leb_gt in E.
      split; [exact S2 |]. split; [auto |]. intros _. left. lia.
Qed.

Lemma merge_batches_steady (temp_file : string) (bs : list batch) : forall w w',
  steady temp_file w ->
  fold_left merge_batch bs (Some w) = Some w' ->
  steady temp_file w'
  /\ (_unsaved_changes (self w) < SAVE_INTERVAL -> _unsaved_changes (self w') < SAVE_INTERVAL)
  /\ (synced w \/ flat_map (fun b => fst (_embed_batch_worker (dimension (self w)) b)) bs <> []
      -> synced w').
Proof.
  induction bs as [|b bs IH]; intros w w' S; cbn [fold_left flat_map].
  - intros [= <-]. split; [exact S |]. split; [auto |]. intros [H | H]; [exact H | congruence].
  - destruct (merge_batch (Some w) b) as [w1|] eqn:E; [| now rewrite merge_batch_none].
    intros H. destruct (merge_batch_steady _ _ _ _ S E) as (S1 & Hb1 & Hy1).
    destruct (IH _ _ S1 H) as (S' & Hb' & Hy').
    apply merge_batch_index in E as (_ & Hd & _). rewrite Hd in Hy'.
    split; [exact S' |]. split; [auto |].
    intros [Hy | Hne]; apply Hy'.
    + left. apply Hy1. now left.
    + destruct (fst (_embed_batch_worker (dimension (self w)) b)) eqn:Er.
      * right. exact Hne.
      * left. apply Hy1. right. discriminate.
Qed.

(** X15.  Between batches fewer than [SAVE_INTERVAL] changes are ever
    unsaved: as long as the saves work (no cut ahead, the temporary file
    another file than the snapshot), a merge that takes the counter to
    twenty or more saves at once and takes it back to zero. *)
Theorem unsaved_changes_stay_below_interval (temp_file : string) (bs : list batch) (w w' : world) :
  steady temp_file w ->
  _unsaved_changes (self w) < SAVE_INTERVAL ->
  fold_left merge_batch bs (Some w) = Some w' ->
  0 <= _unsaved_changes (self w') < SAVE_INTERVAL.
Proof.
  intros S Hlt H. destruct (merge_batches_steady _ _ _ _ S H) as ([_ _ _ Hu] & Hb & _).
  split; [exact Hu | now apply Hb].
Qed.

(** X16.  The final checkpoint: after a run whose saves work (no cut
    ahead, the temporary file another file than the snapshot) and which
    stored at least one result, no change is left unsaved and the snapshot
    file holds the pickle of the index as the run left it. *)
Theorem run_ends_with_snapshot (temp_file : string) (walked : list source_file) (limit : Z)
    (w w' : world) :
  steady temp_file w ->
  merged_results (self w) (limit_files limit walked) <> [] ->
  run_indexing walked limit w = Some w' ->
  _unsaved_changes (self w') = 0
  /\ disk w' !! index_file (self w') = Some (pickle_dumps (index (self w'))).
Proof.
  intros S Hm. unfold run_indexing, merged_results in *.
  set (w0 := if 0 <? limit then print (SayLimiting limit) w else w).
  set (w1 := print say_refrag (print (SayFound (length (limit_files limit walked))) w0)).
  assert (H1 : self w1 = self w /\ disk w1 = disk w /\ cuts w1 = cuts w)
    by (unfold w1, w0; destruct (0 <? limit); now repeat split).
  destruct H1 as (H1 & Hd1 & Hc1). rewrite H1.
  destruct (prepare_tasks (self w) (limit_files limit walked)) as [batches out]. cbn [fst] in Hm.
  set (w2 := fold_left (fun w l => print l w) out w1).
  destruct (prints_frame out w1) as (Hs2 & _ & Hd2). cbv zeta in Hs2, Hd2.
  pose proof (prints_cuts out w1) as Hc2. fold w2 in Hs2, Hd2, Hc2.
  destruct batches as [|b bs].
  - exfalso. apply Hm.
    now rewrite (Permutation_nil (Permutation_sym (as_completed_perm _ []))).
  - destruct (fold_left merge_batch _ _) as [w3|] eqn:E3; [| discriminate].
    destruct (save_index w3) as [w4|] eqn:E4; [| discriminate].
    intros [= <-]. cbn [print self disk].
    assert (S2 : steady temp_file (print (SayProcessing (length (b :: bs))) w2)).
    { destruct S as [Hc Ht Hne Hu]. split; cbn [print self cuts]; rewrite ?Hs2, ?H1; auto.
      congruence. }
    destruct (merge_batches_steady _ _ _ _ S2 E3) as (S3 & _ & Hy3).
    cbn [print self] in Hy3. rewrite Hs2, H1 in Hy3.
    destruct (save_index_steady temp_file w3 S3) as (w5 & Hs5 & _ & Hu5 & _ & Hsync).
    rewrite E4 in Hs5. injection Hs5 as <-.
    split; [exact Hu5 |]. apply Hsync, Hy3. now right.
Qed.

End WithServices.
End RunMore.

(** ** The walk over the corpus *)

Module WalkerFacts.
Import PyStr PyStrFacts Indexer Walker.

Definition subdirs_of (d : dir) : list (string * dir) :=
  match d with Dir subdirs _ => subdirs end.

Definition files_of (d : dir) : list (string * option string) :=
  match d with Dir _ files => files end.

(** The file [name], read as [text], lies in [d] below the chain of
    sub-directories [ds]. *)
Fixpoint located (d : dir) (ds : list string) (name : string) (text : option string) : Prop :=
  match ds with
  | [] => In (name, text) (files_of d)
  | x :: ds' => exists sub, In (x, sub) (subdirs_of d) /\ located sub ds' name text
  end.

(** No directory of the chain is one of those skipped. *)
Definition visited (ds : list string) : bool :=
  forallb (fun x => negb (member x skip_dirs)) ds.

(** The path of what lies below [ds] in the directory at [root]. *)
Definition below (root : string) (ds : list string) : string :=
  fold_left path_join ds root.

(** No name in the tree holds a separator. *)
Fixpoint plain_names (d : dir) : bool :=
  match d with
  | Dir subdirs files =>
      forallb (fun f => match Pathlib.rfind "/" (fst f) with None => true | Some _ => false end) files
      && forallb (fun nd => plain_names (snd nd)) subdirs
  end.

Section Induction.
Variable P : dir -> Prop.
Hypothesis step : forall subdirs files,
  Forall (fun nd => P (snd nd)) subdirs -> P (Dir subdirs files).

Fixpoint dir_induction (d : dir) : P d :=
  match d with
  | Dir subdirs files =>
      step subdirs files
        ((fix each (l : list (string * dir)) : Forall (fun nd => P (snd nd)) l :=
            match l with
            | [] => List.Forall_nil _
            | (n, sub) :: l' =>
                @List.Forall_cons _ (fun nd => P (snd nd)) (n, sub) l' (dir_induction sub) (each l')
            end) subdirs)
  end.
End Induction.

Lemma walk_sound (d : dir) : forall root f,
  In f (walk root d) ->
  exists ds name text,
    located d ds name text
    /\ visited ds = true
    /\ member (Pathlib.suffix name) extensions = true
    /\ f = {| file_path := path_join (below root ds) name; file_name := name; read_text := text |}.
Proof.
  induction d as [subdirs files IH] using dir_induction. intros root f H.
  cbn [walk] in H. apply in_app_or in H as [H | H]; apply in_flat_map in H as (x & Hx & Hf).
  - unfold keep_file in Hf. destruct (member (Pathlib.suffix x.1) extensions) eqn:E; [| destruct Hf].
    destruct Hf as [<- | []]. exists [], x.1, x.2. cbn [located files_of below fold_left].
    repeat split; auto. now destruct x.
  - destruct (member x.1 skip_dirs) eqn:E; [destruct Hf |].
    rewrite List.Forall_forall in IH.
    destruct (IH x Hx _ _ Hf) as (ds & name & text & Hl & Hv & He & ->).
    exists (x.1 :: ds), name, text. cbn [located subdirs_of below fold_left visited forallb].
    rewrite E. repeat split; auto. exists x.2. split; [now destruct x | exact Hl].
Qed.

Lemma walk_complete (ds : list string) : forall d root name text,
  located d ds name text ->
  visited ds = true ->
  member (Pathlib.suffix name) extensions = true ->
  In {| file_path := path_join (below root ds) name; file_name := name; read_text := text |}
     (walk root d).
Proof.
  induction ds as [|x ds IH]; intros [subdirs files] root name text Hl Hv He;
    cbn [located files_of subdirs_of] in Hl; cbn [walk]; apply in_or_app.
  - left. apply in_flat_map. exists (name, text). split; [exact Hl |].
    unfold keep_file. cbn [fst snd]. rewrite He. now left.
  - right. destruct Hl as (sub & Hin & Hl). cbn [visited forallb] in Hv.
    apply andb_prop in Hv as [Hx Hv]. apply negb_true_iff in Hx.
    apply in_flat_map. exists (x, sub). split; [exact Hin |]. cbn [fst snd]. rewrite Hx.
    exact (IH sub (path_join root x) name text Hl Hv He).
Qed.

(** X4.  The walk returns exactly the files whose name has one of the
    listed extensions and which lie below a chain of sub-directories none
    of which is skipped; the directory the walk starts from is not
    checked against the skipped names. *)
Theorem walk_files_exactly (target_dir : string) (tree : dir) (f : source_file) :
  In f (walk_files target_dir tree) <->
  exists ds name text,
    located tree ds name text
    /\ visited ds = true
    /\ member (Pathlib.suffix name) extensions = true
    /\ f = {| file_path := path_join (below target_dir ds) name;
              file_name := name; read_text := text |}.
Proof.
  split.
  - apply walk_sound.
  - intros (ds & name & text & Hl & Hv & He & ->). now apply walk_complete.
Qed.

Lemma rfind_app_sep (c : ascii) (b : string) : forall a,
  Pathlib.rfind c b = None ->
  Pathlib.rfind c (a +:+ String c b) = Some (String.length a).
Proof.
  intros a Hb. induction a as [|x a IH].
  - change (EmptyString +:+ String c b) with (String c b).
    cbn [Pathlib.rfind String.length]. rewrite Hb. now rewrite Ascii.eqb_refl.
  - rewrite app_cons. cbn [Pathlib.rfind String.length]. now rewrite IH.
Qed.

Lemma name_after_sep (a b : string) :
  Pathlib.rfind "/" b = None -> Pathlib.name (a +:+ String "/" b) = b.
Proof.
  intros Hb. unfold Pathlib.name. rewrite (rfind_app_sep _ _ _ Hb). clear Hb.
  induction a as [|x a IH]; [now destruct b |].
  rewrite app_cons. exact IH.
Qed.

Lemma app_assoc_str (a b c : string) : (a +:+ b) +:+ c = a +:+ (b +:+ c).
Proof.
  induction a as [|x a IH]; [reflexivity |].
  rewrite !app_cons. now rewrite IH.
Qed.

Lemma endswith_sep (a : string) :
  endswith "/" a = true -> exists a', a = a' +:+ "/".
Proof.
  unfold endswith. cbn [String.length].
  induction a as [|x a IH]; [discriminate |].
  cbn [String.length]. intros H. apply andb_prop in H as [_ H].
  replace (S (String.length a) - 1)%nat with (String.length a) in H by lia.
  destruct a as [|y a].
  - cbn in H. destruct (Ascii.eqb_spec x "/") as [-> |]; [| discriminate].
    now exists EmptyString.
  - cbn [String.length] in H, IH.
    destruct IH as [a' Ha'].
    + replace (S (String.length a) - 1)%nat with (String.length a) by lia.
      cbn [substring] in H. cbn [Nat.leb]. exact H.
    + exists (String x a'). rewrite app_cons. now rewrite <- Ha'.
Qed.

Lemma name_path_join (root name : string) :
  Pathlib.rfind "/" name = None -> Pathlib.name (path_join root name) = name.
Proof.
  intros Hn. unfold path_join. destruct (endswith "/" root) eqn:E.
  - apply endswith_sep in E as [a ->]. rewrite app_assoc_str.
    now apply name_after_sep.
  - now apply name_after_sep.
Qed.

Lemma located_plain (ds : list string) : forall d name text,
  plain_names d = true -> located d ds name text -> Pathlib.rfind "/" name = None.
Proof.
  induction ds as [|x ds IH]; intros [subdirs files] name text Hp Hl;
    cbn [plain_names] in Hp; apply andb_prop in Hp as [Hf Hs];
    cbn [located files_of subdirs_of] in Hl.
  - rewrite forallb_forall in Hf. specialize (Hf _ Hl). cbn [fst] in Hf.
    now destruct (Pathlib.rfind "/" name).
  - destruct Hl as (sub & Hin & Hl). rewrite forallb_forall in Hs.
    exact (IH sub name text (Hs _ Hin) Hl).
Qed.

(** X5.  In a tree whose names hold no separator, the final component of
    each path the walk returns is the file's own name, so the extension
    of the path is one of those listed. *)
Theorem walked_paths_end_in_the_name (target_dir : string) (tree : dir) (f : source_file) :
  plain_names tree = true ->
  In f (walk_files target_dir tree) ->
  Pathlib.name (file_path f) = file_name f
  /\ member (Pathlib.suffix (file_path f)) extensions = true.
Proof.
  intros Hp H. apply walk_sound in H as (ds & name & text & Hl & _ & He & ->).
  cbn [file_path file_name].
  pose proof (name_path_join (below target_dir ds) name (located_plain _ _ _ _ Hp Hl)) as Hn.
  split; [exact Hn |].
  unfold Pathlib.suffix in *. cbv zeta in *. rewrite Hn.
  replace (Pathlib.name name) with name in He; [exact He |].
  unfold Pathlib.name. now rewrite (located_plain _ _ _ _ Hp Hl).
Qed.

End WalkerFacts.

(** ** More on the search *)

Module SearchMore.
Import PyStr PyStrFacts Indexer ListFacts SearchFacts RunFacts.

Section WithServices.
Context `{np : Numpy} {hl : Hashlib} {ec : EmbeddingClient} {rf : Refrag} {tp : ThreadPool}.
Context {pk : Pickle Index.t}.

#[local] Abbreviation result := (string * list float32 * string * string)%type.

(** What [np.stack] gives for the vectors of the index. *)
Definition stacked (s : indexer) : option ndarray :=
  np_stack (map Index.vector (Index.values (index s))).

Lemma prepare_matrix_frame (s : indexer) :
  let s' := fst (prepare_matrix s) in
  index s' = index s /\ dimension s' = dimension s /\ index_file s' = index_file s
  /\ _unsaved_changes s' = _unsaved_changes s.
Proof.
  unfold prepare_matrix.
  destruct (_paths_cache s), (_matrix_cache s); cbn; auto.
Qed.

(** With fresh caches the prepared pair is the one derived from the index. *)
Lemma prepare_matrix_result (s : indexer) :
  cache_fresh s ->
  snd (prepare_matrix s)
  = match stacked s with
    | Some matrix => Some (Index.keys (index s), matrix)
    | None => None
    end.
Proof.
  unfold cache_fresh, prepare_matrix, stacked.
  destruct (_paths_cache s) as [paths|], (_matrix_cache s) as [matrix|]; cbn [snd];
    try reflexivity; try contradiction.
  intros [-> ->]. reflexivity.
Qed.

Lemma prints_world {A : Type} (f : A -> line) (l : list A) : forall w,
  let w' := fold_left (fun w a => print (f a) w) l w in
  self w' = self w /\ disk w' = disk w /\ api_calls w' = api_calls w /\ cuts w' = cuts w.
Proof.
  induction l as [|a l IH]; intros w; cbn [fold_left]; [now repeat split |].
  apply (IH (print (f a) w)).
Qed.

(** X17.  A search changes nothing but the caches and the console: the
    index, its dimension and file, the count of unsaved changes, the disk
    and the faults ahead are as before, and the service is called once,
    with the query alone, unless the index is empty, when it is not called
    at all. *)
Theorem search_is_read_only (query : string) (top_k : Z) (w : world) :
  let w' := snd (search query top_k w) in
  index (self w') = index (self w)
  /\ dimension (self w') = dimension (self w)
  /\ index_file (self w') = index_file (self w)
  /\ _unsaved_changes (self w') = _unsaved_changes (self w)
  /\ disk w' = disk w
  /\ cuts w' = cuts w
  /\ api_calls w' = match index (self w) with
                    | [] => api_calls w
                    | _ :: _ => api_calls w ++ [[query]]
                    end.
Proof.
  cbv zeta. unfold search. destruct (index (self w)) as [|kv ix] eqn:Ei;
    [cbn; rewrite Ei; now repeat split |].
  cbn [log_call self]. destruct (embed_query _ _) as [e | q_vec];
    [cbn; rewrite Ei; now repeat split |].
  destruct (prepare_matrix_frame (self w)) as (Hi & Hd & Hf & Hu). cbv zeta in Hi, Hd, Hf, Hu.
  destruct (prepare_matrix (self w)) as [s prepared]. cbn [fst] in Hi, Hd, Hf, Hu.
  rewrite Ei in Hi.
  destruct prepared as [[paths matrix]|]; [| cbn; now repeat split].
  destruct (run_funnel _ _ _ _) as [f|]; [| cbn; now repeat split].
  cbn [snd].
  match goal with |- context [fold_left ?g ?l ?w0] =>
    destruct (prints_world (fun h => SayHit (hit_path h)) l w0) as (Hs & Hk & Ha & Hc)
  end.
  cbv zeta in Hs, Hk, Ha, Hc. rewrite Hs, Hk, Ha, Hc. cbn. now repeat split.
Qed.

Lemma firstn_nodup {A : Type} (n : nat) (l : list A) : List.NoDup l -> List.NoDup (firstn n l).
Proof.
  intros H. rewrite <- (firstn_skipn n l) in H. now apply List.NoDup_app_remove_r in H.
Qed.

Lemma ranking_nodup (scores : list float32) (k : Z) :
  List.NoDup (slice_to k (rev (argsort scores))).
Proof.
  destruct (slice_to_prefix k (rev (argsort scores))) as [n ->].
  apply firstn_nodup, List.NoDup_rev, argsort_nodup.
Qed.

Lemma nth_error_inj {A : Type} (l : list A) (i j : nat) (x : A) :
  List.NoDup l -> nth_error l i = Some x -> nth_error l j = Some x -> i = j.
Proof.
  intros Hnd Hi Hj. rewrite List.NoDup_nth_error in Hnd. apply Hnd.
  - apply nth_error_Some. congruence.
  - congruence.
Qed.

Lemma collect_hits_nodup (s : indexer) (paths : list string) (f : funnel) (order : list nat) :
  List.NoDup paths -> List.NoDup (candidate_idxs f) -> List.NoDup order ->
  List.NoDup (map hit_path (collect_hits s paths f order)).
Proof.
  intros Hp Hc. induction 1 as [|i order Hi Ho IH]; cbn [collect_hits map]; [constructor |].
  destruct (make_hit s paths f i) as [h|] eqn:E; cbn [map]; constructor; [| exact IH].
  intros Hin. apply in_map_iff in Hin as (h' & Hsame & Hin).
  destruct (collect_hits_in _ _ _ _ _ Hin) as (idx & Hidx & Hm).
  destruct (make_hit_inv _ _ _ _ _ E) as (g & Hg & Hpg & _).
  destruct (make_hit_inv _ _ _ _ _ Hm) as (g' & Hg' & Hpg' & _).
  rewrite Hsame in Hpg'.
  assert (g' = g) by exact (nth_error_inj _ _ _ _ Hp Hpg' Hpg). subst g'.
  assert (idx = i) by exact (nth_error_inj _ _ _ _ Hc Hg' Hg). subst idx.
  contradiction.
Qed.

(** X18.  No path is returned twice: with the keys of the index distinct,
    as those of a dictionary are, and the caches fresh, the hits of one
    search have pairwise distinct paths. *)
Theorem search_hits_have_distinct_paths (query : string) (top_k : Z) (w : world)
    (hits : list hit) :
  List.NoDup (Index.keys (index (self w))) ->
  cache_fresh (self w) ->
  fst (search query top_k w) = Returns hits ->
  List.NoDup (map hit_path hits).
Proof.
  intros Hnd Hc Hs.
  destruct (search_cases query top_k w)
    as [H | (q_vec & s & paths & matrix & f & _ & _ & Hp & Hf & H)];
    rewrite H in Hs; injection Hs as <-; [constructor |].
  pose proof (prepare_matrix_result _ Hc) as Hr. rewrite Hp in Hr. cbn [snd] in Hr.
  destruct (stacked (self w)) as [m|]; [| discriminate]. injection Hr as -> ->.
  destruct (run_funnel_inv _ _ _ _ _ Hf) as [H1 H2].
  apply stage1_inv in H1 as [_ H1]. apply stage2_inv in H2 as [_ H2].
  apply collect_hits_nodup; [exact Hnd | |].
  - rewrite H1. apply ranking_nodup.
  - rewrite H2. apply ranking_nodup.
Qed.

(** X19.  An index built at another dimension answers nothing: when the
    stored vectors are not as long as the vector of the query, the search
    returns the empty list. *)
Theorem other_dimension_finds_nothing (query : string) (top_k : Z) (w : world)
    (q_vec : list float32) (matrix : ndarray) :
  cache_fresh (self w) ->
  embed_query (dimension (self w)) query = inr q_vec ->
  stacked (self w) = Some matrix ->
  ncols matrix <> length q_vec ->
  fst (search query top_k w) = Returns [].
Proof.
  intros Hc Hq Hst Hne.
  destruct (search_cases query top_k w)
    as [H | (q_vec' & s & paths & matrix' & f & _ & Hq' & Hp & Hf & _)]; [exact H |].
  exfalso. rewrite Hq in Hq'. injection Hq' as <-.
  pose proof (prepare_matrix_result _ Hc) as Hr. rewrite Hp, Hst in Hr. cbn [snd] in Hr.
  injection Hr as -> ->.
  destruct (run_funnel_inv _ _ _ _ _ Hf) as [_ H2]. unfold stage2 in H2.
  destruct (take_rows matrix (candidate_idxs f)) as [sub|] eqn:Et; [| discriminate].
  unfold take_rows in Et. destruct (mapM _ _) as [rs|]; [| discriminate].
  injection Et as <-. unfold np_dot in H2. cbn [normalize_matrix ncols] in H2.
  rewrite normalize_length in H2.
  destruct (ncols matrix =? length q_vec)%nat eqn:E; [| discriminate].
  apply Nat.eqb_eq in E. contradiction.
Qed.

Lemma make_hit_index (s s' : indexer) (paths : list string) (f : funnel) (idx : nat) :
  index s = index s' -> make_hit s paths f idx = make_hit s' paths f idx.
Proof. intros H. unfold make_hit. now rewrite H. Qed.

Lemma collect_hits_index (s s' : indexer) (paths : list string) (f : funnel) (order : list nat) :
  index s = index s' -> collect_hits s paths f order = collect_hits s' paths f order.
Proof.
  intros H. induction order as [|i order IH]; cbn [collect_hits]; [reflexivity |].
  now rewrite (make_hit_index s s' paths f i H), IH.
Qed.

(** X20.  The caches are transparent: two indexers with the same index
    and dimension, each with fresh caches, whether filled or empty, give
    the same answer to the same search. *)
Theorem search_depends_on_index_only (query : string) (top_k : Z) (w1 w2 : world) :
  index (self w1) = index (self w2) ->
  dimension (self w1) = dimension (self w2) ->
  cache_fresh (self w1) ->
  cache_fresh (self w2) ->
  fst (search query top_k w1) = fst (search query top_k w2).
Proof.
  intros Hi Hd H1 H2.
  assert (R : snd (prepare_matrix (self w1)) = snd (prepare_matrix (self w2)))
    by (rewrite !prepare_matrix_result by assumption; unfold stacked; now rewrite Hi).
  assert (I : index (fst (prepare_matrix (self w1))) = index (fst (prepare_matrix (self w2)))).
  { destruct (prepare_matrix_frame (self w1)) as (I1 & _).
    destruct (prepare_matrix_frame (self w2)) as (I2 & _). cbv zeta in I1, I2. congruence. }
  unfold search. rewrite <- Hi. destruct (index (self w1)); [reflexivity |].
  cbn [log_call self]. rewrite <- Hd. destruct (embed_query _ _) as [e | q_vec]; [reflexivity |].
  destruct (prepare_matrix (self w1)) as [s1 p1], (prepare_matrix (self w2)) as [s2 p2].
  cbn [fst snd] in R, I. subst p2.
  destruct p1 as [[paths matrix]|]; [| reflexivity].
  destruct (run_funnel _ _ _ _) as [f|]; [| reflexivity]. cbn [fst].
  f_equal. apply collect_hits_index. exact I.
Qed.

(** *** Snippets *)

Lemma single_line_cons (c : ascii) (s : string) :
  single_line (String c s) <-> Ascii.eqb c newline = false /\ single_line s.
Proof.
  unfold single_line. cbn [split_nl]. destruct (Ascii.eqb c newline) eqn:E.
  - split; [| intros [? _]; discriminate].
    destruct s; cbn [split_nl]; [discriminate |].
    destruct (Ascii.eqb _ _); [discriminate |]. destruct (split_nl s); discriminate.
  - split.
    + intros H. split; [reflexivity |].
      destruct (split_nl s) as [|l ls] eqn:El.
      * now destruct (split_nl_nonempty s).
      * injection H as -> ->. reflexivity.
    + intros [_ ->]. reflexivity.
Qed.

Lemma take_single_line (s : string) : forall n, single_line s -> single_line (take n s).
Proof.
  unfold take. induction s as [|c s IH]; intros [|n] H; try reflexivity.
  cbn [substring]. apply single_line_cons in H as [Hc Hs].
  apply single_line_cons. split; [exact Hc | now apply IH].
Qed.

Lemma replace_single_line (s : string) : single_line s -> replace nl " " s = s.
Proof.
  unfold replace, nl. induction s as [|c s IH]; intros H; [reflexivity |].
  apply single_line_cons in H as [Hc Hs]. cbn [replace_from String.prefix].
  destruct (ascii_dec newline c) as [<- | _]; [now rewrite Ascii.eqb_refl in Hc |].
  now rewrite (IH Hs).
Qed.

(** Every snippet of the index is one line. *)
Definition snippets_on_one_line (ix : Index.t) : Prop :=
  Forall (fun e => single_line (Index.snippet e)) (Index.values ix).

Lemma set_on_one_line (k : string) (e : Index.entry) (ix : Index.t) :
  single_line (Index.snippet e) -> snippets_on_one_line ix ->
  snippets_on_one_line (Index.set k e ix).
Proof.
  unfold snippets_on_one_line, Index.values. intros He.
  induction ix as [|[k' e'] ix IH]; cbn [Index.set map]; intros H.
  - constructor; [exact He | constructor].
  - inversion H as [|? ? H1 H2]; subst.
    destruct (String.eqb k k'); cbn [map snd]; constructor; auto.
Qed.

Lemma store_all_on_one_line (rs : list result) : forall ix,
  Forall (fun r => single_line (Index.snippet (entry_of r))) rs ->
  snippets_on_one_line ix -> snippets_on_one_line (store_all rs ix).
Proof.
  induction rs as [|r rs IH]; intros ix HF H; cbn [store_all fold_left]; [exact H |].
  inversion HF as [|? ? H1 H2]; subst.
  apply (IH _ H2). now apply set_on_one_line.
Qed.

(** X21.  A run keeps every snippet of the index on one line: what it
    stores is the beginning of a sanitised text, which holds no newline. *)
Theorem run_keeps_snippets_on_one_line (walked : list source_file) (limit : Z) (w w' : world) :
  snippets_on_one_line (index (self w)) ->
  run_indexing walked limit w = Some w' ->
  snippets_on_one_line (index (self w')).
Proof.
  intros H Hrun. apply run_indexing_index in Hrun as (-> & _). cbv zeta.
  apply store_all_on_one_line; [| exact H].
  apply List.Forall_forall. intros r Hr.
  apply merged_results_in in Hr as (text & Hin & _ & ->).
  apply file_pending_in in Hin as (f & cs & chunk_text & chunk_suffix & _ & _ & _ & _ & -> & _).
  apply take_single_line, ChunkerMore.sanitize_content_single_line.
Qed.

Lemma get_in_values (k : string) (e : Index.entry) (ix : Index.t) :
  Index.get k ix = Some e -> In e (Index.values ix).
Proof.
  unfold Index.values. induction ix as [|[k' e'] ix IH]; cbn [Index.get map snd]; [discriminate |].
  destruct (String.eqb k k'); [intros [= ->]; now left | intros H; right; auto].
Qed.

(** X22.  Each hit carries the entry's snippet as stored: the newlines
    that [search] replaces by blanks are not there when every snippet of
    the index is one line. *)
Theorem hits_carry_stored_snippets (query : string) (top_k : Z) (w : world) (hits : list hit) :
  snippets_on_one_line (index (self w)) ->
  fst (search query top_k w) = Returns hits ->
  Forall (fun h => exists e,
            Index.get (hit_path h) (index (self w)) = Some e
            /\ hit_snippet h = Index.snippet e)
         hits.
Proof.
  intros H1 Hs.
  destruct (search_cases query top_k w)
    as [H | (q_vec & s & paths & matrix & f & _ & _ & Hp & _ & H)];
    rewrite H in Hs; injection Hs as <-; [constructor |].
  destruct (prepare_matrix_frame (self w)) as (Hi & _). cbv zeta in Hi.
  rewrite Hp in Hi. cbn [fst] in Hi.
  apply List.Forall_forall. intros h Hh.
  apply collect_hits_in in Hh as (idx & _ & Hm). unfold make_hit in Hm.
  destruct (nth_error (candidate_idxs f) idx) as [g|]; [| discriminate].
  destruct (nth_error paths g) as [p|]; [| discriminate].
  destruct (nth_error (scores_full f) idx) as [x|]; [| discriminate].
  destruct (Index.get p (index s)) as [e|] eqn:Eg; [| discriminate].
  injection Hm as <-. cbn [hit_path hit_snippet]. rewrite Hi in Eg.
  exists e. split; [exact Eg |]. apply replace_single_line.
  unfold snippets_on_one_line in H1. rewrite List.Forall_forall in H1.
  apply H1. eapply get_in_values, Eg.
Qed.

End WithServices.
End SearchMore.

(** ** The caches over the life of an indexer *)

Module LifeCycle.
Import Indexer Loading SearchFacts RunFacts.

Section WithServices.
Context `{np : Numpy} {hl : Hashlib} {ec : EmbeddingClient} {rf : Refrag} {tp : ThreadPool}.
Context {pk : Pickle Index.t} {up : Unpickle}.

(** A call of one of the methods that touch the index or its caches. *)
Inductive call :=
| CallLoad
| CallSave
| CallRun (walked : list source_file) (limit : Z)
| CallSearch (query : string) (top_k : Z).

(** The world after the call; [None] when the process does not survive it. *)
Definition after (c : call) (w : world) : option world :=
  match c with
  | CallLoad => Some (fst (load_index w))
  | CallSave => save_index w
  | CallRun walked limit => run_indexing walked limit w
  | CallSearch query top_k => Some (snd (search query top_k w))
  end.

Fixpoint after_all (cs : list call) (w : world) : option world :=
  match cs with
  | [] => Some w
  | c :: cs' =>
      match after c w with
      | Some w' => after_all cs' w'
      | None => None
      end
  end.

Lemma load_index_fresh (w : world) : cache_fresh (self (fst (load_index w))).
Proof.
  unfold load_index. destruct (disk w !! index_file (self w)) as [data|]; [| exact I].
  destruct (pickle_loads data); exact I.
Qed.

Lemma after_fresh (c : call) (w w' : world) :
  after c w = Some w' -> cache_fresh (self w) -> cache_fresh (self w').
Proof.
  destruct c as [| | walked limit | query top_k]; cbn [after].
  - intros [= <-] _. apply load_index_fresh.
  - apply save_index_fresh.
  - apply run_indexing_fresh.
  - intros [= <-]. apply cache_fresh_search.
Qed.

(** X23.  The caches never go stale: from the construction of the indexer
    on, after any sequence of loads, saves, runs and searches, the cached
    key list and matrix, when set, are the ones the index gives. *)
Theorem caches_never_stale (resolved_index_file : string) (dim : Z) (cs : list call)
    (w0 w : world) :
  after_all cs (fst (__init__ resolved_index_file dim w0)) = Some w ->
  cache_fresh (self w).
Proof.
  unfold __init__.
  generalize (load_index_fresh
    (with_self (fun _ => {| dimension := dim; index_file := resolved_index_file; index := [];
                            _unsaved_changes := 0;
                            _matrix_cache := None; _paths_cache := None |}) w0)).
  generalize (fst (load_index
    (with_self (fun _ => {| dimension := dim; index_file := resolved_index_file; index := [];
                            _unsaved_changes := 0;
                            _matrix_cache := None; _paths_cache := None |}) w0))).
  induction cs as [|c cs IH]; intros w1 H1; cbn [after_all].
  - now intros [= <-].
  - destruct (after c w1) as [w2|] eqn:E; [| discriminate].
    apply IH. exact (after_fresh _ _ _ E H1).
Qed.

End WithServices.
End LifeCycle.

(** ** Texts without file markers *)

Module MarkerFacts.
Import PyStr Re Chunker.

Lemma split_markers_plain (lines : list string) : forall acc,
  forallb (fun l => negb (is_file_marker l)) lines = true ->
  split_markers lines acc = [join_nl (acc ++ lines)].
Proof.
  induction lines as [|l lines IH]; intros acc H; cbn [split_markers].
  - now rewrite List.app_nil_r.
  - cbn [forallb] in H. apply andb_prop in H as [Hl H].
    apply negb_true_iff in Hl. rewrite Hl, (IH _ H), <- List.app_assoc. reflexivity.
Qed.

(** X3.  A text none of whose lines is a file marker is chunked as one
    document named [main]. *)
Theorem smart_chunk_without_markers (raw_text : string) (limit : Z) :
  forallb (fun l => negb (is_file_marker l)) (split_nl raw_text) = true ->
  smart_chunk raw_text limit = _text_splitter raw_text "main" limit.
Proof.
  intros H. unfold smart_chunk, split_file_markers.
  now rewrite (split_markers_plain _ [] H).
Qed.

End MarkerFacts.

(** ** Concrete runs of the further properties *)

Module FurtherScenario.
Import PyStr Chunker Indexer Loading Walker Fixture Scenario RunScenario.
Import SearchFacts RunFacts LoadFacts RunMore WalkerFacts SearchMore LifeCycle MarkerFacts.

(** A reader for the snapshots of [Fixture.pickle], which writes one byte
    for each entry: it takes any three bytes for the index [three]. *)
#[local] Instance unpickle : Unpickle := {|
  pickle_loads := fun data =>
    if (length data =? 3)%nat then Some (stored_of_index three) else None
|}.

(** An indexer with one unsaved change, on an empty disk, with the cuts
    [cs] ahead. *)
Definition unsaved_world (snapshot : string) (ix : Index.t) (cs : list Fs.cut) : world :=
  {| self := {| dimension := 2; index_file := snapshot; index := ix;
                _unsaved_changes := 1; _matrix_cache := None; _paths_cache := None |};
     disk := ∅; api_calls := []; console := []; cuts := cs |}.

(** A store whose vectors are shorter than the dimension asked for. *)
Definition wide_world : world :=
  with_self (fun s => {| dimension := 3; index_file := index_file s; index := index s;
                         _unsaved_changes := _unsaved_changes s;
                         _matrix_cache := None; _paths_cache := None |}) (world_of three).

(** A small repository. *)
Definition repo : dir :=
  Dir [ ("src"%string, Dir [] [("main.py"%string, Some "print(1)"%string)]);
        ("node_modules"%string, Dir [] [("index.js"%string, Some "x"%string)]) ]
      [ ("README.md"%string, Some "readme"%string); ("logo.png"%string, None) ].

Lemma three_keys_distinct : List.NoDup (Index.keys three).
Proof.
  repeat (constructor; [cbn; intuition discriminate |]). constructor.
Defined.

Lemma three_on_one_line : snippets_on_one_line three.
Proof. repeat constructor. Defined.

Lemma world_steady : steady "/data/mrl_index.tmp" (world_of []).
Proof. split; [reflexivity | reflexivity | discriminate | cbn; lia]. Defined.

Lemma save_then_load_witness :
  exists w',
    save_index (unsaved_world "/data/mrl_index.pkl" three []) = Some w'
    /\ index (self (fst (__init__ "/data/mrl_index.pkl" 2 w'))) = three.
Proof.
  destruct (save_then_load (unsaved_world "/data/mrl_index.pkl" three []) "/data/mrl_index.tmp" 2)
    as (w' & Hs & _ & _ & Hl);
    [cbn; lia | reflexivity | reflexivity | discriminate | reflexivity |].
  exists w'. split; [exact Hs | exact Hl].
Defined.

Lemma early_cut_keeps_snapshot_witness :
  exists w',
    save_index (unsaved_world "/data/mrl_index.pkl" three [Fs.CutInWrite 1]) = Some w'
    /\ self w' = self (unsaved_world "/data/mrl_index.pkl" three [Fs.CutInWrite 1]).
Proof.
  destruct (early_cut_keeps_snapshot
              (unsaved_world "/data/mrl_index.pkl" three [Fs.CutInWrite 1])
              "/data/mrl_index.tmp" (Fs.CutInWrite 1) [] 2)
    as (w' & Hs & _ & Hself & _);
    [cbn; lia | reflexivity | discriminate | discriminate | reflexivity | discriminate |].
  exists w'. split; [exact Hs | exact Hself].
Defined.

Lemma next_save_recovers_witness :
  exists w1 w2,
    save_index (unsaved_world "/data/mrl_index.pkl" three [Fs.CutAfterUnlink]) = Some w1
    /\ save_index w1 = Some w2
    /\ _unsaved_changes (self w2) = 0.
Proof.
  destruct (next_save_recovers
              (unsaved_world "/data/mrl_index.pkl" three [Fs.CutAfterUnlink])
              "/data/mrl_index.tmp" Fs.CutAfterUnlink)
    as (w1 & w2 & H1 & H2 & _ & Hu & _);
    [cbn; lia | reflexivity | reflexivity | discriminate |].
  exists w1, w2. split; [exact H1 |]. split; [exact H2 | exact Hu].
Defined.

Lemma tmp_named_snapshot_is_lost_witness :
  Pathlib.with_suffix "/data/cache.tmp" ".tmp" = Some "/data/cache.tmp"%string
  /\ exists w',
       save_index (unsaved_world "/data/cache.tmp" three []) = Some w'
       /\ disk w' !! "/data/cache.tmp"%string = None.
Proof.
  split; [reflexivity |].
  destruct (tmp_named_snapshot_is_lost (unsaved_world "/data/cache.tmp" three []))
    as (w' & Hs & Hd & _); [cbn; lia | reflexivity | reflexivity |].
  exists w'. split; [exact Hs | exact Hd].
Defined.

Lemma empty_store_queues_every_chunk_witness :
  concat (fst (prepare_tasks (indexer_of []) corpus)) = chunk_items corpus.
Proof. exact (empty_store_queues_every_chunk (indexer_of []) corpus eq_refl). Defined.

Lemma worker_pairs_by_position_witness :
  map path_of (fst (_embed_batch_worker 2 [("/c/a.txt::main"%string, "hello"%string)]))
  = ["/c/a.txt::main"%string].
Proof.
  exact (proj1 (worker_pairs_by_position 2 [("/c/a.txt::main"%string, "hello"%string)]
                  [[5; 5]] eq_refl)).
Defined.

Lemma failed_batches_stay_pending_witness :
  exists w',
    @run_indexing numpy hashlib client_down refrag pool pickle corpus 0 (world_of []) = Some w'
    /\ index (self w') = []
    /\ length (api_calls w') = 1%nat.
Proof.
  eexists.
  assert (Hrun : @run_indexing numpy hashlib client_down refrag pool pickle corpus 0 (world_of [])
                 = Some _) by (vm_compute; reflexivity).
  split; [exact Hrun |].
  destruct (@failed_batches_stay_pending numpy hashlib client_down refrag pool pickle
              corpus 0 (world_of []) _
              (fun contents => ex_intro _ "503 UNAVAILABLE"%string eq_refl) Hrun)
    as (Hi & Hc & _).
  split; [exact Hi | exact Hc].
Defined.

Lemma unsaved_changes_stay_below_interval_witness :
  exists w',
    fold_left merge_batch (fst (prepare_tasks (indexer_of []) corpus)) (Some (world_of [])) = Some w'
    /\ 0 <= _unsaved_changes (self w') < SAVE_INTERVAL.
Proof.
  eexists.
  assert (H : fold_left merge_batch (fst (prepare_tasks (indexer_of []) corpus))
                (Some (world_of [])) = Some _) by (vm_compute; reflexivity).
  split; [exact H |].
  refine (unsaved_changes_stay_below_interval "/data/mrl_index.tmp" _ (world_of []) _
            world_steady _ H).
  cbn. unfold SAVE_INTERVAL. lia.
Defined.

Lemma run_ends_with_snapshot_witness :
  exists w',
    run_indexing corpus 0 (world_of []) = Some w'
    /\ _unsaved_changes (self w') = 0
    /\ disk w' !! index_file (self w') = Some (pickle_dumps (index (self w'))).
Proof.
  eexists.
  assert (Hrun : run_indexing corpus 0 (world_of []) = Some _) by (vm_compute; reflexivity).
  split; [exact Hrun |].
  refine (run_ends_with_snapshot "/data/mrl_index.tmp" corpus 0 (world_of []) _
            world_steady _ Hrun).
  vm_compute. discriminate.
Defined.

Lemma walked_paths_end_in_the_name_witness :
  In {| file_path := "/repo/src/main.py"; file_name := "main.py";
        read_text := Some "print(1)"%string |} (walk_files "/repo" repo)
  /\ Pathlib.name "/repo/src/main.py" = "main.py"%string.
Proof.
  assert (H : In {| file_path := "/repo/src/main.py"; file_name := "main.py";
                    read_text := Some "print(1)"%string |} (walk_files "/repo" repo))
    by (vm_compute; tauto).
  split; [exact H |].
  exact (proj1 (walked_paths_end_in_the_name "/repo" repo _ eq_refl H)).
Defined.

Lemma search_hits_have_distinct_paths_witness :
  exists hits,
    fst (search "x" 2 (world_of three)) = Returns hits
    /\ List.NoDup (map hit_path hits).
Proof.
  eexists.
  assert (H : fst (search "x" 2 (world_of three)) = Returns _) by (vm_compute; reflexivity).
  split; [exact H |].
  exact (search_hits_have_distinct_paths "x" 2 (world_of three) _ three_keys_distinct I H).
Defined.

Lemma other_dimension_finds_nothing_witness :
  embed_query (dimension (self wide_world)) "x" = inr [1; 1; 1]
  /\ fst (search "x" 2 wide_world) = Returns [].
Proof.
  split; [reflexivity |].
  refine (other_dimension_finds_nothing "x" 2 wide_world [1; 1; 1]
            {| rows := [[3; 0]; [1; 1]; [2; 5]]; ncols := 2 |} I eq_refl eq_refl _).
  cbn. lia.
Defined.

Lemma search_depends_on_index_only_witness :
  _paths_cache (self (snd (search "x" 2 (world_of three)))) <> None
  /\ fst (search "y" 1 (world_of three))
     = fst (search "y" 1 (snd (search "x" 2 (world_of three)))).
Proof.
  split; [vm_compute; discriminate |].
  refine (search_depends_on_index_only "y" 1 (world_of three)
            (snd (search "x" 2 (world_of three))) _ _ I _).
  - vm_compute. reflexivity.
  - vm_compute. reflexivity.
  - apply cache_fresh_search. exact I.
Defined.

Lemma run_keeps_snippets_on_one_line_witness :
  exists w',
    run_indexing corpus 0 (world_of []) = Some w'
    /\ snippets_on_one_line (index (self w')).
Proof.
  eexists.
  assert (Hrun : run_indexing corpus 0 (world_of []) = Some _) by (vm_compute; reflexivity).
  split; [exact Hrun |].
  refine (run_keeps_snippets_on_one_line corpus 0 (world_of []) _ _ Hrun).
  constructor.
Defined.

Lemma hits_carry_stored_snippets_witness :
  exists hits,
    fst (search "x" 2 (world_of three)) = Returns hits
    /\ Forall (fun h => exists e,
                 Index.get (hit_path h) three = Some e /\ hit_snippet h = Index.snippet e)
              hits.
Proof.
  eexists.
  assert (H : fst (search "x" 2 (world_of three)) = Returns _) by (vm_compute; reflexivity).
  split; [exact H |].
  exact (hits_carry_stored_snippets "x" 2 (world_of three) _ three_on_one_line H).
Defined.

Lemma caches_never_stale_witness :
  exists w,
    after_all [CallRun corpus 0; CallSearch "hello" 1; CallSave; CallLoad; CallSearch "x" 1]
      (fst (__init__ "/data/mrl_index.pkl" 2 (world_of []))) = Some w
    /\ cache_fresh (self w).
Proof.
  eexists.
  assert (H : after_all [CallRun corpus 0; CallSearch "hello" 1; CallSave; CallLoad;
                         CallSearch "x" 1]
                (fst (__init__ "/data/mrl_index.pkl" 2 (world_of []))) = Some _)
    by (vm_compute; reflexivity).
  split; [exact H |].
  exact (caches_never_stale "/data/mrl_index.pkl" 2 _ (world_of []) _ H).
Defined.

Lemma smart_chunk_without_markers_witness :
  smart_chunk "alpha
beta" 8000 = [("alpha
beta"%string, "::main"%string)].
Proof.
  exact (smart_chunk_without_markers "alpha
beta" 8000 eq_refl).
Defined.

End FurtherScenario.
